(** * Conway's Game of Life on a quad tree: the spatial index and the
      generation loop of sholloway/conways_game

    Shallow embedding of
      - conway_module/lib/workers/GridSystem.worker.js  (module quadtree:
        Cell, DeadCell, QTNode, addCell, validIndex, QuadTree,
        findAliveNeighbors, uniformScale, scaleCells, cloneCells),
      - conway_module/lib/core/DrawingStateManager.js   (GameManager:
        seedWorld, evaluateCells, activateNext; QuadTreeSeeder;
        DrawingStateManager: toggleCell, activateNext, clear; collectBoxes),
        and
      - src/lib/components/StartButton.js  (the states of the button).

    Numbers.  Grid coordinates, ages and leaf indices are JavaScript numbers
    that hold integers, in the range where JavaScript computes on integers
    exactly; they are embedded as [Z].  The only non-integer number of the
    module is the [Infinity] of [DeadCell], which gets a type of its own
    ([num]).

    Objects.  A [QTNode] is mutated in place by [setLeaf] and [subdivide];
    the embedding rebuilds the node and returns it.  The debugging field
    [id] (a global counter) is left out: no function reads it.  The
    [traits] list a [Cell] inherits from [Entity] only feeds the renderer
    and is left out as well.

    Failure.  A JavaScript [throw] is the outcome [Throw]; a recursion that
    does not bottom out within the given fuel is the outcome [OutOfFuel].
    In the non-negative quadrant [index] returns and fuel plays no part
    ([index_returns], [index_wf]); outside it [index] may recurse without
    end ([index_runs_forever]). *)

From Stdlib Require Import ZArith List Bool Lia String Permutation.
Import ListNotations.
Open Scope Z_scope.

(* ================================================================= *)
(** ** Outcomes of a call *)

Inductive outcome (A : Type) : Type :=
| Ret (a : A)
| Throw (msg : string)
| OutOfFuel.

Arguments Ret {A} a.
Arguments Throw {A} msg.
Arguments OutOfFuel {A}.

Definition bind {A B : Type} (c : outcome A) (k : A -> outcome B) : outcome B :=
  match c with
  | Ret a => k a
  | Throw msg => Throw msg
  | OutOfFuel => OutOfFuel
  end.

Notation "x <- c1 ;; c2" := (bind c1 (fun x => c2))
  (at level 61, c1 at next level, right associativity).

(* ================================================================= *)
(** ** Cells *)

(** Modelled from the spec: CellStates.js of conway_module is not among the
    sources (the quad tree reads [CellStates.ALIVE] and [CellStates.DEAD]);
    the spec gives the enumeration ALIVE, DEAD, RETIRED. *)
Inductive CellState : Type := DEAD | ALIVE | RETIRED.

Definition CellState_eqb (a b : CellState) : bool :=
  match a, b with
  | DEAD, DEAD | ALIVE, ALIVE | RETIRED, RETIRED => true
  | _, _ => false
  end.

(** The numbers a cell coordinate can hold: an integer, or the [Infinity]
    of the dead sentinel. *)
Inductive num : Type := Int (z : Z) | Infinity.

(** class Cell: [location.row], [location.col], [age], [state].  The fields
    [width] and [height] are set to 1 by the constructor and never written
    again; they are the constants [width] and [height] below. *)
Record CellOf (N : Type) : Type := mkCell {
  row : N;
  col : N;
  age : Z;
  state : CellState
}.

Arguments mkCell {N} row col age state.
Arguments row {N} c.
Arguments col {N} c.
Arguments age {N} c.
Arguments state {N} c.

(** A cell of the grid: integer coordinates. *)
Definition Cell : Type := CellOf Z.

Definition width (cell : Cell) : Z := 1.
Definition height (cell : Cell) : Z := 1.

(** [new Cell(row, col, age = 0, state = CellStates.ALIVE)] *)
Definition newCell (r c : Z) (a : option Z) (s : option CellState) : Cell :=
  mkCell r c (match a with Some v => v | None => 0 end)
             (match s with Some v => v | None => ALIVE end).

(** [Cell.isInsideRect(x, y, xx, yy)] *)
Definition Cell_isInsideRect (cell : Cell) (qx qy qxx qyy : Z) : bool :=
  (qx <=? row cell) && (row cell <=? qxx) &&
  (qy <=? col cell) && (col cell <=? qyy).

Definition getState {N : Type} (cell : CellOf N) : CellState := state cell.

(** [Cell.clone()] *)
Definition Cell_clone (cell : Cell) : Cell :=
  mkCell (row cell) (col cell) (age cell) (state cell).

(** [const DeadCell = new Cell(Infinity, Infinity, 0, CellStates.DEAD)],
    frozen. *)
Definition DeadCell : CellOf num := mkCell Infinity Infinity 0 DEAD.

(** A grid cell seen as a value a lookup returns. *)
Definition asFound (cell : Cell) : CellOf num :=
  mkCell (Int (row cell)) (Int (col cell)) (age cell) (state cell).

(* ================================================================= *)
(** ** QTNode *)

Record Rect : Type := mkRect { x : Z; y : Z; xx : Z; yy : Z }.

(** [Math.ceil(a / b)] on integers [a] and a positive integer [b]. *)
Definition Math_ceil_div (a b : Z) : Z := - ((- a) / b).

(** The method [area()]: the constructor stores its value in the field
    [area]. *)
Definition QTNode_area (r : Rect) : Z :=
  let length := Z.abs (xx r) - Z.abs (x r) in
  let height := Z.abs (yy r) - Z.abs (y r) in
  length * height.

(** A node.  [subdivided] and the four child pointers are written together,
    and only by [subdivide]: the constructor leaves [subdivided = false]
    with four null children ([Undivided]), [subdivide] sets the flag and
    all four children ([Subdivided]). *)
Inductive QTNode : Type :=
| Undivided (rect : Rect) (area : Z) (index : option Z)
| Subdivided (rect : Rect) (area : Z) (index : option Z)
             (upperLeft upperRight lowerLeft lowerRight : QTNode).

Definition rect (n : QTNode) : Rect :=
  match n with
  | Undivided r _ _ => r
  | Subdivided r _ _ _ _ _ _ => r
  end.

Definition area (n : QTNode) : Z :=
  match n with
  | Undivided _ a _ => a
  | Subdivided _ a _ _ _ _ _ => a
  end.

Definition index (n : QTNode) : option Z :=
  match n with
  | Undivided _ _ i => i
  | Subdivided _ _ i _ _ _ _ => i
  end.

Definition subdivided (n : QTNode) : bool :=
  match n with
  | Undivided _ _ _ => false
  | Subdivided _ _ _ _ _ _ _ => true
  end.

(** [new QTNode(id, x, y, xx, yy)] *)
Definition newQTNode (x0 y0 xx0 yy0 : Z) : QTNode :=
  let r := mkRect x0 y0 xx0 yy0 in
  Undivided r (QTNode_area r) None.

(** [children()] *)
Definition children (n : QTNode) : list QTNode :=
  match n with
  | Undivided _ _ _ => []
  | Subdivided _ _ _ ul ur ll lr => [ul; ur; ll; lr]
  end.

(** [containsPoint(x, y)] *)
Definition containsPoint (n : QTNode) (px py : Z) : bool :=
  ((x (rect n) <=? px) && (px <=? xx (rect n))) &&
  ((y (rect n) <=? py) && (py <=? yy (rect n))).

(** [containsRect(cell)] *)
Definition containsRect (n : QTNode) (cell : Cell) : bool :=
  containsPoint n (row cell) (col cell) &&
  containsPoint n (row cell + width cell) (col cell + height cell).

(** [intersectsAABB(x, y, xx, yy)] *)
Definition intersectsAABB (n : QTNode) (qx qy qxx qyy : Z) : bool :=
  ((x (rect n) <=? qxx) && (xx (rect n) >=? qx)) &&
  ((y (rect n) <=? qyy) && (yy (rect n) >=? qy)).

(** [setLeaf(index)] *)
Definition setLeaf (n : QTNode) (i : Z) : QTNode :=
  match n with
  | Undivided r a _ => Undivided r a (Some i)
  | Subdivided r a _ ul ur ll lr => Subdivided r a (Some i) ul ur ll lr
  end.

(** The split point of [subdivide()]. *)
Definition split_p (r : Rect) : Z :=
  x r + Math_ceil_div (Z.abs (xx r) - Z.abs (x r)) 2.

Definition split_q (r : Rect) : Z :=
  y r + Math_ceil_div (Z.abs (yy r) - Z.abs (y r)) 2.

(** [subdivide()] *)
Definition subdivide (n : QTNode) : QTNode :=
  match n with
  | Subdivided _ _ _ _ _ _ _ => n
  | Undivided r a i =>
      let p := split_p r in
      let q := split_q r in
      Subdivided r a i
        (newQTNode (x r) (y r) p q)
        (newQTNode p (y r) (xx r) q)
        (newQTNode (x r) q p (yy r))
        (newQTNode p q (xx r) (yy r))
  end.

(* ================================================================= *)
(** ** Building the tree *)

Record AABB : Type := mkAABB { rowMin : Z; colMin : Z; rowMax : Z; colMax : Z }.

Definition emptyAABB : AABB := mkAABB 0 0 0 0.

(** One turn of the [forEach] of [buildAxisAlignedBoundingBox], on the
    variables (rowMin, rowMax, colMin, colMax). *)
Definition bbox_step (acc : Z * Z * Z * Z) (cell : Cell) : Z * Z * Z * Z :=
  let '(rMin, rMax, cMin, cMax) := acc in
  (Z.min rMin (row cell), Z.max rMax (row cell),
   Z.min cMin (col cell), Z.max cMax (col cell)).

(** [buildAxisAlignedBoundingBox(cells)]; [cells[0]] is [cell0] ([index]
    calls it on a non-empty array only). *)
Definition buildAxisAlignedBoundingBox (cell0 : Cell) (cells : list Cell) : AABB :=
  let '(rMin, rMax, cMin, cMax) :=
    fold_left bbox_step cells (row cell0, row cell0, col cell0, col cell0) in
  mkAABB rMin cMin (rMax + 1) (cMax + 1).

(** [addCell(minimumCellSize, node, cell, index)].  The recursion descends
    into children that [subdivide] has just created, so it is driven by
    fuel: one unit per call. *)
Fixpoint addCell (fuel : nat) (minimumCellSize : Z) (node : QTNode)
                 (cell : Cell) (i : Z) : outcome QTNode :=
  match fuel with
  | O => OutOfFuel
  | S fuel' =>
      if negb (containsRect node cell) then Ret node
      else if minimumCellSize >=? area node then Ret (setLeaf node i)
      else
        match subdivide node with
        | Undivided r a j => Ret (Undivided r a j)
        | Subdivided r a j ul ur ll lr =>
            ul' <- addCell fuel' minimumCellSize ul cell i ;;
            ur' <- addCell fuel' minimumCellSize ur cell i ;;
            ll' <- addCell fuel' minimumCellSize ll cell i ;;
            lr' <- addCell fuel' minimumCellSize lr cell i ;;
            Ret (Subdivided r a j ul' ur' ll' lr')
        end
  end.

(** [validIndex(array, index)]: [null] is not a number. *)
Definition validIndex {A : Type} (array : list A) (i : option Z) : bool :=
  match i with
  | None => false
  | Some k => (k >=? 0) && (k <=? Z.of_nat (List.length array) - 1)
  end.

(** [array[index]] for an index that passed [validIndex]. *)
Definition at_index {A : Type} (array : list A) (i : option Z) : option A :=
  match i with
  | None => None
  | Some k => nth_error array (Z.to_nat k)
  end.

(* ================================================================= *)
(** ** QuadTree *)

Record QuadTree : Type := mkQuadTree {
  leaves : list Cell;
  root : option QTNode;
  minimumCellSize : Z;
  boundary : option AABB
}.

(** [new QuadTree(liveCells)] *)
Definition newQuadTree (liveCells : list Cell) : QuadTree :=
  mkQuadTree liveCells None 1 None.

Definition aliveCellsCount (t : QuadTree) : Z := Z.of_nat (List.length (leaves t)).

(** [clear()]: the nodes are destroyed, the root and the leaves reset. *)
Definition clear (t : QuadTree) : QuadTree :=
  mkQuadTree [] None (minimumCellSize t) (boundary t).

(** [QuadTree.empty()] *)
Definition QuadTree_empty : QuadTree := newQuadTree [].

(** The [forEach((cell, index) => addCell(...))] of [index]. *)
Fixpoint addCells (fuel : nat) (mcs : Z) (node : QTNode)
                  (cells : list Cell) (i : Z) : outcome QTNode :=
  match cells with
  | [] => Ret node
  | cell :: rest =>
      node' <- addCell fuel mcs node cell i ;;
      addCells fuel mcs node' rest (i + 1)
  end.

(** [index(liveCells = null)].  The method returns the root; the embedding
    returns the tree, whose [root] it is. *)
Definition QuadTree_index (fuel : nat) (t : QuadTree)
                          (liveCells : option (list Cell)) : outcome QuadTree :=
  let leaves' := match liveCells with Some l => l | None => leaves t end in
  let boundary' :=
    match leaves' with
    | cell0 :: _ => buildAxisAlignedBoundingBox cell0 leaves'
    | [] => emptyAABB
    end in
  let root0 := newQTNode (rowMin boundary') (colMin boundary')
                         (rowMax boundary') (colMax boundary') in
  root' <- addCells fuel (minimumCellSize t) root0 leaves' 0 ;;
  Ret (mkQuadTree leaves' (Some root') (minimumCellSize t) (Some boundary')).

(** [QuadTree.clone(tree)]; [None] is a null or undefined argument. *)
Definition QuadTree_clone (fuel : nat) (tree : option QuadTree) : outcome QuadTree :=
  match tree with
  | None => Ret QuadTree_empty
  | Some t =>
      let clonedCells := map Cell_clone (leaves t) in
      QuadTree_index fuel (newQuadTree clonedCells) None
  end.

(** [search(cell, currentNode)] below a node that is not null.  Children of
    a subdivided node are never null, so the [nextNode === null] test of
    the source always takes its second branch. *)
Fixpoint search_from (mcs : Z) (cell : Cell) (currentNode : QTNode) : option QTNode :=
  if area currentNode =? mcs then
    if containsRect currentNode cell &&
       (match index currentNode with Some _ => true | None => false end)
    then Some currentNode else None
  else
    match currentNode with
    | Undivided _ _ _ => None
    | Subdivided _ _ _ ul ur ll lr =>
        let cellRightBoundary := row cell + width cell in
        let cellLowerBoundary := col cell + height cell in
        let horizontalPartition := xx (rect ul) in
        let verticalPartition := yy (rect ul) in
        if cellRightBoundary <=? horizontalPartition then
          if cellLowerBoundary <=? verticalPartition
          then search_from mcs cell ul
          else search_from mcs cell ll
        else
          if cellLowerBoundary <=? verticalPartition
          then search_from mcs cell ur
          else search_from mcs cell lr
    end.

(** [search(cell, currentNode = this.root)]: [Ret None] is the [null]
    result. *)
Definition search (t : QuadTree) (cell : Cell) : outcome (option QTNode) :=
  match root t with
  | None => Throw "Cannot search a null tree."
  | Some currentNode => Ret (search_from (minimumCellSize t) cell currentNode)
  end.

(** [findCellIfAlive(row, col)] *)
Definition findCellIfAlive (t : QuadTree) (r c : Z) : outcome (CellOf num) :=
  foundLeafNode <- search t (newCell r c None None) ;;
  match foundLeafNode with
  | Some node =>
      if validIndex (leaves t) (index node) then
        match at_index (leaves t) (index node) with
        | Some indexedCell => Ret (asFound indexedCell)
        | None => Ret DeadCell
        end
      else Ret DeadCell
  | None => Ret DeadCell
  end.

(** [findAliveInArea(x, y, xx, yy, currentNode)] below a node that is not
    null. *)
Fixpoint findAliveInArea_from (lvs : list Cell) (qx qy qxx qyy : Z)
                              (currentNode : QTNode) : list Cell :=
  if negb (intersectsAABB currentNode qx qy qxx qyy) then []
  else
    match currentNode with
    | Subdivided _ _ _ ul ur ll lr =>
        let q1 := findAliveInArea_from lvs qx qy qxx qyy ul in
        let q2 := findAliveInArea_from lvs qx qy qxx qyy ur in
        let q3 := findAliveInArea_from lvs qx qy qxx qyy ll in
        let q4 := findAliveInArea_from lvs qx qy qxx qyy lr in
        [] ++ q1 ++ q2 ++ q3 ++ q4
    | Undivided _ _ i =>
        if validIndex lvs i then
          match at_index lvs i with
          | Some cell =>
              if Cell_isInsideRect cell qx qy qxx qyy then [cell] else []
          | None => []
          end
        else []
    end.

(** [findAliveInArea(x, y, xx, yy, currentNode = this.root)] *)
Definition findAliveInArea (t : QuadTree) (qx qy qxx qyy : Z) : outcome (list Cell) :=
  match root t with
  | None => Throw "Cannot perform a range query on an empty node."
  | Some currentNode => Ret (findAliveInArea_from (leaves t) qx qy qxx qyy currentNode)
  end.

(** [findAliveNeighbors(tree, row, col)] *)
Definition findAliveNeighbors (tree : QuadTree) (r c : Z) : outcome Z :=
  aliveCells <- findAliveInArea tree (r - 1) (c - 1) (r + 1) (c + 1) ;;
  Ret (fold_left
         (fun count cell =>
            if negb ((row cell =? r) && (col cell =? c)) then count + 1 else count)
         aliveCells 0).

(* ================================================================= *)
(** ** GameManager *)

(** CellEvaluator.js is not among the sources: the evaluator is a parameter
    of [evaluateCells], as it is in the source.  This is the evaluator of
    the tests (GameManagerSpec.js), under which every cell lives; it
    returns 1, the value of [CellStates.ALIVE]. *)
Definition AlwayAliveEvaluator (neighborsCount : Z) (currentCellState : CellState)
  : CellState := ALIVE.

Record GameManager : Type := mkGameManager {
  landscape_width : Z;
  landscape_height : Z;
  currentTree : QuadTree;
  nextTree : QuadTree
}.

(** [new GameManager(config)] *)
Definition newGameManager (w h : Z) : GameManager :=
  mkGameManager w h QuadTree_empty QuadTree_empty.

(** The values [0, 1, ..., n-1] a counting [for] loop runs through. *)
Definition range (n : Z) : list Z := map Z.of_nat (seq 0 (Z.to_nat n)).

(** A [for] loop whose body may throw, threading the variables it writes. *)
Fixpoint forLoop {A : Type} (body : Z -> A -> outcome A) (values : list Z)
                 (acc : A) : outcome A :=
  match values with
  | [] => Ret acc
  | v :: rest => acc' <- body v acc ;; forLoop body rest acc'
  end.

(** The body of the inner loop of [evaluateCells]. *)
Definition evaluateCell (evaluate : Z -> CellState -> CellState)
                        (tree : QuadTree) (r c : Z)
                        (nextAliveCells : list Cell) : outcome (list Cell) :=
  aliveNeighbors <- findAliveNeighbors tree r c ;;
  foundCell <- findCellIfAlive tree r c ;;
  let nextCellState := evaluate aliveNeighbors (getState foundCell) in
  if CellState_eqb nextCellState ALIVE
  then Ret (nextAliveCells ++ [newCell r c (Some (age foundCell + 1)) None])
  else Ret nextAliveCells.

(** Step 1 of [evaluateCells]: the list of the next generation. *)
Definition scanLandscape (evaluate : Z -> CellState -> CellState)
                         (gm : GameManager) : outcome (list Cell) :=
  forLoop
    (fun r acc =>
       forLoop (fun c acc' => evaluateCell evaluate (currentTree gm) r c acc')
               (range (landscape_height gm)) acc)
    (range (landscape_width gm)) [].

Section Scene.
(** SceneManager.js is not among the sources: the scene and its [push]
    are parameters.  [registerCellTraits] only fills the [traits] of the
    cells. *)
Variable Scene : Type.
Variable scene_push : Scene -> list Cell -> Scene.

(** [evaluateCells(scene, evaluator)] *)
Definition evaluateCells (fuel : nat) (gm : GameManager) (scene : Scene)
           (evaluate : Z -> CellState -> CellState)
  : outcome (GameManager * Scene) :=
  nextAliveCells <- scanLandscape evaluate gm ;;
  nextTree' <- QuadTree_index fuel (clear (nextTree gm)) (Some nextAliveCells) ;;
  Ret (mkGameManager (landscape_width gm) (landscape_height gm)
                     (currentTree gm) nextTree',
       scene_push scene nextAliveCells).
End Scene.

Arguments evaluateCells {Scene} scene_push fuel gm scene evaluate.

(** [seedWorld(seeder)]; [seed] is the seeder's [seed(width, height)]. *)
Definition seedWorld (fuel : nat) (gm : GameManager)
                     (seed : Z -> Z -> list Cell) : outcome GameManager :=
  let aliveCells := seed (landscape_width gm) (landscape_height gm) in
  cur <- QuadTree_index fuel (currentTree gm) (Some aliveCells) ;;
  nxt <- QuadTree_index fuel (nextTree gm) None ;;
  Ret (mkGameManager (landscape_width gm) (landscape_height gm) cur nxt).

(** [activateNext()] *)
Definition activateNext (fuel : nat) (gm : GameManager) : outcome GameManager :=
  cur <- QuadTree_clone fuel (Some (nextTree gm)) ;;
  nxt <- QuadTree_index fuel (clear (nextTree gm)) None ;;
  Ret (mkGameManager (landscape_width gm) (landscape_height gm) cur nxt).

(* ================================================================= *)
(** ** Vocabulary of the proofs *)

(** [containsRect] as a test on the rectangle alone. *)
Definition rect_contains (r : Rect) (cell : Cell) : bool :=
  containsRect (Undivided r 0 None) cell.

(** A rectangle of the non-negative quadrant with ordered corners. *)
Definition ordered (r : Rect) : Prop :=
  0 <= x r <= xx r /\ 0 <= y r <= yy r.

(** Cells of the non-negative quadrant. *)
Definition nonneg (cell : Cell) : Prop := 0 <= row cell /\ 0 <= col cell.

Definition same_place (a b : Cell) : Prop := row a = row b /\ col a = col b.

(** Pairwise-distinct coordinates. *)
Fixpoint distinct_places (cells : list Cell) : Prop :=
  match cells with
  | [] => True
  | c :: rest => (forall d, In d rest -> ~ same_place c d) /\ distinct_places rest
  end.

(** No two different cells of the list sit at the same place. *)
Definition places_determine (cells : list Cell) : Prop :=
  forall a b, In a cells -> In b cells -> same_place a b -> a = b.

(** The position (counted from [k]) of the last cell of [cells] that lies
    in [r]: the index the last [setLeaf] on a node of rectangle [r] wrote. *)
Fixpoint owner (k : Z) (cells : list Cell) (r : Rect) : option Z :=
  match cells with
  | [] => None
  | c :: rest =>
      match owner (k + 1) rest r with
      | Some i => Some i
      | None => if rect_contains r c then Some k else None
      end
  end.

(** The four rectangles [subdivide] gives to the children. *)
Definition quadrants (r : Rect) : list Rect :=
  [ mkRect (x r) (y r) (split_p r) (split_q r);
    mkRect (split_p r) (y r) (xx r) (split_q r);
    mkRect (x r) (split_q r) (split_p r) (yy r);
    mkRect (split_p r) (split_q r) (xx r) (yy r) ].

(** The shape of a tree into which the cells [done] have been inserted, in
    the non-negative quadrant. *)
Fixpoint wf (done : list Cell) (n : QTNode) : Prop :=
  ordered (rect n) /\
  area n = QTNode_area (rect n) /\
  index n = (if area n <=? 1 then owner 0 done (rect n) else None) /\
  match n with
  | Undivided _ _ _ => 1 < area n -> owner 0 done (rect n) = None
  | Subdivided r _ _ ul ur ll lr =>
      1 < area n /\
      rect ul = mkRect (x r) (y r) (split_p r) (split_q r) /\
      rect ur = mkRect (split_p r) (y r) (xx r) (split_q r) /\
      rect ll = mkRect (x r) (split_q r) (split_p r) (yy r) /\
      rect lr = mkRect (split_p r) (split_q r) (xx r) (yy r) /\
      wf done ul /\ wf done ur /\ wf done ll /\ wf done lr
  end.

(** The nodes of a tree. *)
Fixpoint nodes (n : QTNode) : list QTNode :=
  n :: match n with
       | Undivided _ _ _ => []
       | Subdivided _ _ _ ul ur ll lr => nodes ul ++ nodes ur ++ nodes ll ++ nodes lr
       end.

(** The fuel [addCell] needs on a rectangle: its half perimeter. *)
Definition depth_bound (r : Rect) : nat :=
  S (Z.to_nat ((xx r - x r) + (yy r - y r))).

(** Fuel that suffices to index [cells]. *)
Definition enough_fuel (cells : list Cell) : nat :=
  match cells with
  | [] => 1%nat
  | cell0 :: _ =>
      let b := buildAxisAlignedBoundingBox cell0 cells in
      depth_bound (mkRect (rowMin b) (colMin b) (rowMax b) (colMax b))
  end.

(** What one turn of the inner loop of [evaluateCells] appends for the
    position ([r], [c]): nothing, or the cell of the next generation. *)
Definition born (evaluate : Z -> CellState -> CellState) (tree : QuadTree)
                (r c : Z) (appended : list Cell) : Prop :=
  exists aliveNeighbors foundCell,
    findAliveNeighbors tree r c = Ret aliveNeighbors /\
    findCellIfAlive tree r c = Ret foundCell /\
    appended =
      if CellState_eqb (evaluate aliveNeighbors (getState foundCell)) ALIVE
      then [newCell r c (Some (age foundCell + 1)) None]
      else [].

(** What the inner loop appends for the row [r]. *)
Definition born_in_row (evaluate : Z -> CellState -> CellState) (tree : QuadTree)
                       (columns : list Z) (r : Z) (appended : list Cell) : Prop :=
  exists pieces, appended = List.concat pieces /\
                 Forall2 (born evaluate tree r) columns pieces.

(* ================================================================= *)
(** ** A small world *)

(** Three cells of age 1 around the dead corner (0, 0) of a 2 x 2
    landscape. *)
Definition corner_seed : list Cell :=
  [ newCell 0 1 (Some 1) None; newCell 1 0 (Some 1) None;
    newCell 1 1 (Some 1) None ].

(** A scene that keeps nothing. *)
Definition no_scene (scene : unit) (cells : list Cell) : unit := tt.

(** The world after [seedWorld]. *)
Definition corner_world : GameManager :=
  Eval vm_compute in
    match seedWorld 5 (newGameManager 2 2) (fun _ _ => corner_seed) with
    | Ret gm => gm
    | _ => newGameManager 2 2
    end.

(** The world after [seedWorld] and [evaluateCells]. *)
Definition corner_world_evaluated : GameManager :=
  Eval vm_compute in
    match evaluateCells no_scene 5 corner_world tt AlwayAliveEvaluator with
    | Ret (gm, _) => gm
    | _ => corner_world
    end.

(** The tree of the one cell (0, 0) after the array it was indexed from,
    which the tree shares with its caller, has lost the cell: the leaf
    still carries the index 0, which is out of range. *)
Definition stale_tree : QuadTree :=
  mkQuadTree [] (Some (Undivided (mkRect 0 0 1 1) 1 (Some 0))) 1
             (Some (mkAABB 0 0 1 1)).

(** The tree [index] builds over [corner_seed]. *)
Definition corner_tree : QuadTree :=
  Eval vm_compute in
    match QuadTree_index 5 (newQuadTree corner_seed) None with
    | Ret t => t
    | _ => QuadTree_empty
    end.

(** The root node of that tree. *)
Definition corner_root : QTNode :=
  Eval vm_compute in
    match root corner_tree with
    | Some rt => rt
    | None => newQTNode 0 0 0 0
    end.

(** Two cells of the negative quadrant. *)
Definition negative_seed : list Cell :=
  [ newCell (-3) (-3) (Some 1) None; newCell (-2) (-1) (Some 1) None ].

(* ================================================================= *)
(** ** The rest of the quad tree module *)

(** [uniformScale(node, factor)]: the four corners of every rectangle of
    the subtree are multiplied by [factor]; the stored area is not
    touched. *)
Fixpoint uniformScale (node : QTNode) (factor : Z) : QTNode :=
  let r := rect node in
  let r' := mkRect (x r * factor) (y r * factor) (xx r * factor) (yy r * factor) in
  match node with
  | Undivided _ a i => Undivided r' a i
  | Subdivided _ a i ul ur ll lr =>
      Subdivided r' a i (uniformScale ul factor) (uniformScale ur factor)
                 (uniformScale ll factor) (uniformScale lr factor)
  end.

(** [scaleCells(cells, scalingFactor)]: the new cells keep the age and take
    the default state. *)
Definition scaleCells (cells : list Cell) (scalingFactor : Z) : list Cell :=
  map (fun cell => newCell (row cell * scalingFactor) (col cell * scalingFactor)
                           (Some (age cell)) None)
      cells.

(** [cloneCells(cells)], and the [clone(cells)] of DrawingStateManager.js,
    which has the same body: the copies have age 1. *)
Definition cloneCells (cells : list Cell) : list Cell :=
  fold_left (fun clones cell => clones ++ [newCell (row cell) (col cell) (Some 1) None])
            cells [].

(** class Box of DrawingStateManager.js: a rectangle and the flag [alive]. *)
Record Box : Type := mkBox {
  box_x : Z; box_y : Z; box_xx : Z; box_yy : Z;
  alive : bool
}.

(** [collectBoxes(currentNode, boxes)]: the array [boxes] is threaded. *)
Fixpoint collectBoxes (currentNode : QTNode) (boxes : list Box) : list Box :=
  let containsAliveCell :=
    match index currentNode with Some _ => true | None => false end in
  let boxes1 :=
    boxes ++ [mkBox (x (rect currentNode)) (y (rect currentNode))
                    (xx (rect currentNode)) (yy (rect currentNode))
                    containsAliveCell] in
  match currentNode with
  | Undivided _ _ _ => boxes1
  | Subdivided _ _ _ ul ur ll lr =>
      collectBoxes lr (collectBoxes ll (collectBoxes ur (collectBoxes ul boxes1)))
  end.

(** [QuadTreeSeeder.seed(width, height)].  [birthChance x y] is the number
    [randomAliveOrDead()] returned at the turn of the position (x, y). *)
Definition QuadTreeSeeder_seed (birthChance : Z -> Z -> Z) (w h : Z) : list Cell :=
  fold_left
    (fun aliveCells x0 =>
       fold_left
         (fun aliveCells' y0 =>
            if birthChance x0 y0 =? 1
            then aliveCells' ++ [newCell x0 y0 (Some 1) None]
            else aliveCells')
         (range h) aliveCells)
    (range w) [].

(** [array.splice(start, 1)]: the array without the element at [start].
    A negative [start] counts from the end, a [start] past the end removes
    nothing, and [null] is 0. *)
Definition splice1 {A : Type} (array : list A) (start : option Z) : list A :=
  let len := Z.of_nat (List.length array) in
  let s := match start with Some k => k | None => 0 end in
  let from := if s <? 0 then Z.max (len + s) 0 else Z.min s len in
  firstn (Z.to_nat from) array ++ skipn (S (Z.to_nat from)) array.

(* ================================================================= *)
(** ** DrawingStateManager *)

Module DrawingStateManager.

(** The fields [cells], [currentTree] and [nextTree].  [config] only feeds
    the renderer.  Where the source lets a tree share the array [cells]
    ([index(this.cells)]), the tree is replaced or cleared before the array
    is written again or the tree's leaves are read. *)
Record t : Type := mk {
  cells : list Cell;
  currentTree : QuadTree;
  nextTree : QuadTree
}.

(** [new DrawingStateManager(config)] *)
Definition new (fuel : nat) : outcome t :=
  cur <- QuadTree_index fuel QuadTree_empty (Some []) ;;
  Ret (mk [] cur QuadTree_empty).

(** [activateNext()] *)
Definition activateNext (fuel : nat) (d : t) : outcome t :=
  cur <- QuadTree_clone fuel (Some (nextTree d)) ;;
  nxt <- QuadTree_index fuel (clear (nextTree d)) None ;;
  Ret (mk (cells d) cur nxt).

(** [toggleCell(x, y)] *)
Definition toggleCell (fuel : nat) (d : t) (x0 y0 : Z) : outcome t :=
  node <- search (currentTree d) (newCell x0 y0 None None) ;;
  let cells' :=
    match node with
    | None => cells d ++ [newCell x0 y0 (Some 1) None]
    | Some n => splice1 (cells d) (index n)
    end in
  nxt <- QuadTree_index fuel (clear (nextTree d)) (Some cells') ;;
  activateNext fuel (mk cells' (currentTree d) nxt).

(** [clear()] *)
Definition clear (fuel : nat) (d : t) : outcome t :=
  cur <- QuadTree_index fuel (clear (currentTree d)) None ;;
  nxt <- QuadTree_index fuel (clear (nextTree d)) None ;;
  Ret (mk [] cur nxt).

End DrawingStateManager.

(* ================================================================= *)
(** ** StartButton *)

Module StartButton.

Record ButtonState : Type := mkButtonState {
  name : string;
  buttonTitle : string;
  nextState : string;
  event : string
}.

(** The table [ButtonStates], read at a key.  Keys the table does not have
    give [None] (names inherited from [Object.prototype] aside). *)
Definition ButtonStates (key : string) : option ButtonState :=
  if String.eqb key "IDLE" then
    Some (mkButtonState "IDLE" "Start" "RUNNING" "sim-event-start-requested")
  else if String.eqb key "RUNNING" then
    Some (mkButtonState "RUNNING" "Pause" "PAUSED" "sim-event-pause-requested")
  else if String.eqb key "PAUSED" then
    Some (mkButtonState "PAUSED" "Resume" "RUNNING" "sim-event-resume-requested")
  else None.

(** [handleClick()]: the event that is dispatched and the new [state];
    reading a field of [undefined] throws. *)
Definition handleClick (state : string) : outcome (string * string) :=
  match ButtonStates state with
  | Some s => Ret (event s, nextState s)
  | None => Throw "TypeError"
  end.

(** [n] clicks in a row: the events dispatched, in order, and the last
    state. *)
Fixpoint clicks (n : nat) (state : string) : outcome (list string * string) :=
  match n with
  | O => Ret ([], state)
  | S n' =>
      r <- handleClick state ;;
      rest <- clicks n' (snd r) ;;
      Ret (fst r :: fst rest, snd rest)
  end.

End StartButton.

(* ================================================================= *)
(** ** A small drawing *)

(** The drawing after [toggleCell(1, 1)] on a new manager. *)
Definition drawing_one : DrawingStateManager.t :=
  Eval vm_compute in
    match (d <- DrawingStateManager.new 5 ;;
           DrawingStateManager.toggleCell 5 d 1 1) with
    | Ret d => d
    | _ => DrawingStateManager.mk [] QuadTree_empty QuadTree_empty
    end.

(** The drawing after [toggleCell(1, 1)] and [toggleCell(0, 2)]. *)
Definition drawing_two : DrawingStateManager.t :=
  Eval vm_compute in
    match DrawingStateManager.toggleCell 5 drawing_one 0 2 with
    | Ret d => d
    | _ => drawing_one
    end.

(* ================================================================= *)
(** ** More vocabulary *)

(** [t] is what [index] builds over [cells] in the non-negative quadrant:
    the leaves, a well-shaped root around every cell. *)
Definition indexed_over (t : QuadTree) (cells : list Cell) : Prop :=
  leaves t = cells /\ minimumCellSize t = 1 /\
  exists rt, root t = Some rt /\ wf cells rt /\
             (forall c, In c cells -> rect_contains (rect rt) c = true).

(** The cells of the 3 x 3 window around (r, k), its centre apart. *)
Definition is_neighbor (r k : Z) (cell : Cell) : bool :=
  Cell_isInsideRect cell (r - 1) (k - 1) (r + 1) (k + 1) &&
  negb ((row cell =? r) && (col cell =? k)).

(** The box of the unit square of a cell, flagged alive. *)
Definition alive_box_of (cell : Cell) : Box :=
  mkBox (row cell) (col cell) (row cell + 1) (col cell + 1) true.

(** A drawing state whose current tree is indexed over its cells, which lie
    in the non-negative quadrant at distinct places (and whose next tree
    has the minimum cell size of the constructor). *)
Definition consistent (d : DrawingStateManager.t) : Prop :=
  (forall c, In c (DrawingStateManager.cells d) -> nonneg c) /\
  distinct_places (DrawingStateManager.cells d) /\
  indexed_over (DrawingStateManager.currentTree d) (DrawingStateManager.cells d) /\
  minimumCellSize (DrawingStateManager.nextTree d) = 1.

(** The box [collectBoxes] pushes for a node. *)
Definition box_of_node (n : QTNode) : Box :=
  mkBox (x (rect n)) (y (rect n)) (xx (rect n)) (yy (rect n))
        (match index n with Some _ => true | None => false end).

(** A cell with the coordinates multiplied by [factor]. *)
Definition scaleCell (factor : Z) (cell : Cell) : Cell :=
  newCell (row cell * factor) (col cell * factor) (Some (age cell)) None.

(* ================================================================= *)
(** ** Arithmetic of rectangles *)

(** [Math_ceil_div a 2] is the least integer that is at least [a / 2]. *)
Lemma Math_ceil_div_2_spec (a : Z) :
  a <= 2 * Math_ceil_div a 2 < a + 2.
Proof.
  unfold Math_ceil_div.
  pose proof (Z.div_mod (- a) 2 ltac:(lia)) as E.
  pose proof (Z.mod_pos_bound (- a) 2 ltac:(lia)) as B.
  lia.
Qed.

Lemma containsRect_rect (n : QTNode) (cell : Cell) :
  containsRect n cell = rect_contains (rect n) cell.
Proof. reflexivity. Qed.

Lemma rect_contains_iff (r : Rect) (cell : Cell) :
  rect_contains r cell = true <->
  x r <= row cell /\ row cell + 1 <= xx r /\
  y r <= col cell /\ col cell + 1 <= yy r.
Proof.
  unfold rect_contains, containsRect, containsPoint, width, height; simpl.
  rewrite !andb_true_iff, !Z.leb_le. lia.
Qed.

Lemma rect_contains_false_iff (r : Rect) (cell : Cell) :
  rect_contains r cell = false <->
  ~ (x r <= row cell /\ row cell + 1 <= xx r /\
     y r <= col cell /\ col cell + 1 <= yy r).
Proof.
  rewrite <- rect_contains_iff. destruct (rect_contains r cell); intuition congruence.
Qed.

Lemma area_ordered (r : Rect) :
  ordered r -> QTNode_area r = (xx r - x r) * (yy r - y r).
Proof.
  unfold ordered, QTNode_area. intros [Hx Hy].
  rewrite !Z.abs_eq by lia. reflexivity.
Qed.

Lemma split_p_ordered (r : Rect) :
  ordered r ->
  xx r - x r <= 2 * (split_p r - x r) < xx r - x r + 2.
Proof.
  unfold ordered, split_p. intros [Hx Hy].
  rewrite !Z.abs_eq by lia.
  pose proof (Math_ceil_div_2_spec (xx r - x r)). lia.
Qed.

Lemma split_q_ordered (r : Rect) :
  ordered r ->
  yy r - y r <= 2 * (split_q r - y r) < yy r - y r + 2.
Proof.
  unfold ordered, split_q. intros [Hx Hy].
  rewrite !Z.abs_eq by lia.
  pose proof (Math_ceil_div_2_spec (yy r - y r)). lia.
Qed.

(** On a rectangle of the non-negative quadrant the stored area is the
    geometric one. *)
Lemma area_newQTNode_ordered (x0 y0 xx0 yy0 : Z) :
  0 <= x0 <= xx0 -> 0 <= y0 <= yy0 ->
  area (newQTNode x0 y0 xx0 yy0) = Z.abs (xx0 - x0) * Z.abs (yy0 - y0).
Proof.
  intros Hx Hy. simpl. unfold QTNode_area; simpl.
  rewrite !Z.abs_eq by lia. reflexivity.
Qed.

(** On a rectangle of the non-negative quadrant the split point is the one
    of the difference of the corners. *)
Lemma split_point_ordered (r : Rect) :
  ordered r ->
  split_p r = x r + Math_ceil_div (xx r - x r) 2 /\
  split_q r = y r + Math_ceil_div (yy r - y r) 2.
Proof.
  unfold ordered, split_p, split_q. intros [Hx Hy].
  rewrite !Z.abs_eq by lia. split; reflexivity.
Qed.

(** What [subdivide] builds on a node that is not subdivided yet. *)
Lemma subdivide_children (r : Rect) (a : Z) (i : option Z) :
  children (subdivide (Undivided r a i)) =
  [ newQTNode (x r) (y r) (split_p r) (split_q r);
    newQTNode (split_p r) (y r) (xx r) (split_q r);
    newQTNode (x r) (split_q r) (split_p r) (yy r);
    newQTNode (split_p r) (split_q r) (xx r) (yy r) ].
Proof. reflexivity. Qed.

(** [subdivide] does nothing to a node that is subdivided already. *)
Lemma subdivide_twice (n : QTNode) :
  subdivide (subdivide n) = subdivide n.
Proof. destruct n; reflexivity. Qed.

(* ================================================================= *)
(** ** The owner of a rectangle *)

Lemma owner_app (cells : list Cell) (c : Cell) (r : Rect) :
  forall k,
  owner k (cells ++ [c]) r =
  if rect_contains r c then Some (k + Z.of_nat (List.length cells))
  else owner k cells r.
Proof.
  induction cells as [|a cells IH]; intros k; simpl.
  - rewrite Z.add_0_r. reflexivity.
  - rewrite IH. destruct (rect_contains r c).
    + f_equal. lia.
    + reflexivity.
Qed.

Lemma owner_none (cells : list Cell) (r : Rect) :
  forall k,
  owner k cells r = None <->
  (forall c, In c cells -> rect_contains r c = false).
Proof.
  induction cells as [|a cells IH]; intros k; simpl.
  - split; [intros _ c [] | reflexivity].
  - specialize (IH (k + 1)).
    destruct (owner (k + 1) cells r) as [i|].
    + split; [discriminate|]. intros H.
      destruct IH as [_ IH]. discriminate IH. intros c Hc. apply H. now right.
    + destruct IH as [IH _]. specialize (IH eq_refl).
      destruct (rect_contains r a) eqn:Ea.
      * split; [discriminate|]. intros H. rewrite (H a) in Ea by now left. discriminate.
      * split; [|reflexivity]. intros _ c [<-|Hc]; auto.
Qed.

(** The owner is the position of a cell of the list that lies in the
    rectangle, and no later cell of the list lies in it. *)
Lemma owner_some (cells : list Cell) (r : Rect) :
  forall k i,
  owner k cells r = Some i ->
  k <= i < k + Z.of_nat (List.length cells) /\
  exists c, nth_error cells (Z.to_nat (i - k)) = Some c /\
            rect_contains r c = true /\
            (forall j d, (Z.to_nat (i - k) < j)%nat ->
                         nth_error cells j = Some d -> rect_contains r d = false).
Proof.
  induction cells as [|a cells IH]; intros k i; simpl.
  - discriminate.
  - destruct (owner (k + 1) cells r) as [i'|] eqn:E.
    + intros [= <-]. destruct (IH _ _ E) as [B [c [Hn [Hc Hl]]]].
      split; [lia|]. exists c.
      replace (Z.to_nat (i' - k)) with (S (Z.to_nat (i' - (k + 1)))) by lia.
      simpl. repeat split; auto.
      intros [|j] d Hj; [lia|]. simpl. apply Hl. lia.
    + destruct (rect_contains r a) eqn:Ea; [|discriminate].
      intros [= <-]. split; [lia|]. exists a.
      rewrite Z.sub_diag. simpl. repeat split; auto.
      intros [|j] d Hj; [lia|]. simpl. intros Hd.
      apply (proj1 (owner_none cells r (k + 1)) E d).
      eapply nth_error_In; eauto.
Qed.

(* ================================================================= *)
(** ** Quadrants *)

Lemma quadrant_ordered (r r' : Rect) :
  ordered r -> In r' (quadrants r) -> ordered r'.
Proof.
  intros Ho Hin.
  pose proof (split_p_ordered r Ho). pose proof (split_q_ordered r Ho).
  unfold ordered in *.
  simpl in Hin. destruct Hin as [<-|[<-|[<-|[<-|[]]]]]; simpl; lia.
Qed.

Lemma quadrant_contains (r r' : Rect) (c : Cell) :
  ordered r -> In r' (quadrants r) ->
  rect_contains r' c = true -> rect_contains r c = true.
Proof.
  intros Ho Hin. rewrite !rect_contains_iff.
  pose proof (split_p_ordered r Ho). pose proof (split_q_ordered r Ho).
  unfold ordered in *.
  simpl in Hin. destruct Hin as [<-|[<-|[<-|[<-|[]]]]]; simpl; lia.
Qed.

Lemma quadrant_owner_none (r r' : Rect) (cells : list Cell) :
  ordered r -> In r' (quadrants r) ->
  owner 0 cells r = None -> owner 0 cells r' = None.
Proof.
  intros Ho Hin. rewrite !owner_none. intros H c Hc.
  destruct (rect_contains r' c) eqn:E; [|reflexivity].
  rewrite <- (H c Hc). symmetry. eapply quadrant_contains; eauto.
Qed.

(** A cell of a rectangle lies in exactly the quadrant that [search]
    picks. *)
Lemma quadrant_pick (r : Rect) (c : Cell) :
  ordered r -> rect_contains r c = true ->
  rect_contains
    (if row c + 1 <=? split_p r
     then if col c + 1 <=? split_q r
          then mkRect (x r) (y r) (split_p r) (split_q r)
          else mkRect (x r) (split_q r) (split_p r) (yy r)
     else if col c + 1 <=? split_q r
          then mkRect (split_p r) (y r) (xx r) (split_q r)
          else mkRect (split_p r) (split_q r) (xx r) (yy r)) c = true.
Proof.
  intros Ho. rewrite rect_contains_iff. intros Hc.
  destruct (row c + 1 <=? split_p r) eqn:Ep;
  destruct (col c + 1 <=? split_q r) eqn:Eq;
  rewrite rect_contains_iff; simpl;
  rewrite ?Z.leb_le, ?Z.leb_gt in *; lia.
Qed.

(** Half perimeters shrink along the path of a cell. *)
Lemma quadrant_depth (r r' : Rect) (c : Cell) :
  ordered r -> In r' (quadrants r) -> 1 < QTNode_area r ->
  rect_contains r' c = true ->
  (depth_bound r' < depth_bound r)%nat.
Proof.
  intros Ho Hin Ha. rewrite (area_ordered r Ho) in Ha.
  rewrite rect_contains_iff.
  pose proof (split_p_ordered r Ho). pose proof (split_q_ordered r Ho).
  unfold depth_bound. unfold ordered in *.
  simpl in Hin. destruct Hin as [<-|[<-|[<-|[<-|[]]]]]; simpl; intros Hc.
  - assert (2 <= xx r - x r \/ 2 <= yy r - y r) by nia. lia.
  - lia.
  - lia.
  - lia.
Qed.

(* ================================================================= *)
(** ** [addCell] keeps the shape of the tree *)

Lemma wf_ordered (done : list Cell) (n : QTNode) :
  wf done n -> ordered (rect n).
Proof. destruct n; simpl; tauto. Qed.

Lemma wf_area (done : list Cell) (n : QTNode) :
  wf done n -> area n = QTNode_area (rect n).
Proof. destruct n; simpl; tauto. Qed.

Lemma wf_index (done : list Cell) (n : QTNode) :
  wf done n ->
  index n = (if area n <=? 1 then owner 0 done (rect n) else None).
Proof. destruct n; simpl; tauto. Qed.

Lemma wf_fresh (done : list Cell) (r : Rect) :
  ordered r -> owner 0 done r = None ->
  wf done (newQTNode (x r) (y r) (xx r) (yy r)).
Proof.
  intros Ho Hn. destruct r as [a b c d]. simpl in *.
  repeat split; try apply Ho; auto.
  rewrite Hn. now destruct (_ <=? 1).
Qed.

(** A cell outside the rectangle of a node leaves the whole subtree as it
    is. *)
Lemma wf_skip (done : list Cell) (c : Cell) (n : QTNode) :
  wf done n -> rect_contains (rect n) c = false -> wf (done ++ [c]) n.
Proof.
  induction n as [r a i | r a i ul IHul ur IHur ll IHll lr IHlr]; simpl.
  - intros (Ho & Ha & Hi & Hu) Hc. rewrite owner_app, Hc. auto.
  - intros (Ho & Ha & Hi & Hlt & Eul & Eur & Ell & Elr & Wul & Wur & Wll & Wlr) Hc.
    rewrite owner_app, Hc.
    assert (Hq : forall r', In r' (quadrants r) -> rect_contains r' c = false).
    { intros r' Hin. destruct (rect_contains r' c) eqn:E; [|reflexivity].
      rewrite <- Hc. symmetry. eapply quadrant_contains; eauto. }
    repeat split; try apply Ho; auto.
    + apply IHul; auto. rewrite Eul. apply Hq. simpl; auto.
    + apply IHur; auto. rewrite Eur. apply Hq. simpl; auto.
    + apply IHll; auto. rewrite Ell. apply Hq. simpl; auto.
    + apply IHlr; auto. rewrite Elr. apply Hq. simpl; auto 6.
Qed.

(** A node of area above 1 is subdivided by [addCell] (or is already) into
    well-shaped quadrants. *)
Lemma wf_subdivide (done : list Cell) (n : QTNode) :
  wf done n -> 1 < area n ->
  exists ul ur ll lr,
    subdivide n = Subdivided (rect n) (area n) None ul ur ll lr /\
    map rect [ul; ur; ll; lr] = quadrants (rect n) /\
    wf done ul /\ wf done ur /\ wf done ll /\ wf done lr.
Proof.
  destruct n as [r a i | r a i ul ur ll lr]; simpl.
  - intros (Ho & Ha & Hi & Hu) Hlt.
    assert ((a <=? 1) = false) as E by (apply Z.leb_gt; lia).
    rewrite E in Hi. subst i. specialize (Hu Hlt).
    assert (Hq : forall r', In r' (quadrants r) ->
                 wf done (newQTNode (x r') (y r') (xx r') (yy r'))).
    { intros r' Hin. apply wf_fresh.
      - eapply quadrant_ordered; eauto.
      - eapply quadrant_owner_none; eauto. }
    do 4 eexists. split; [reflexivity|]. split; [reflexivity|].
    split; [|split; [|split]].
    + apply (Hq (mkRect (x r) (y r) (split_p r) (split_q r))). simpl; auto.
    + apply (Hq (mkRect (split_p r) (y r) (xx r) (split_q r))). simpl; auto.
    + apply (Hq (mkRect (x r) (split_q r) (split_p r) (yy r))). simpl; auto.
    + apply (Hq (mkRect (split_p r) (split_q r) (xx r) (yy r))). simpl; auto 6.
  - intros (Ho & Ha & Hi & Hlt & Eul & Eur & Ell & Elr & Wul & Wur & Wll & Wlr) _.
    assert ((a <=? 1) = false) as E by (apply Z.leb_gt; lia).
    rewrite E in Hi. subst i.
    exists ul, ur, ll, lr. split; [reflexivity|]. split.
    + simpl. unfold quadrants. congruence.
    + auto.
Qed.

Lemma bind_Ret {A B : Type} (c : outcome A) (k : A -> outcome B) (b : B) :
  bind c k = Ret b -> exists a, c = Ret a /\ k a = Ret b.
Proof. destruct c; simpl; try discriminate. eauto. Qed.

(** Inserting the next cell of the list into a well-shaped tree gives a
    well-shaped tree over the longer list. *)
Lemma addCell_wf (done : list Cell) (c : Cell) :
  forall fuel n n',
  wf done n ->
  addCell fuel 1 n c (Z.of_nat (List.length done)) = Ret n' ->
  wf (done ++ [c]) n' /\ rect n' = rect n.
Proof.
  induction fuel as [|fuel IH]; intros n n' W; simpl; [discriminate|].
  rewrite containsRect_rect.
  destruct (rect_contains (rect n) c) eqn:Ec; simpl.
  2:{ intros [= <-]. split; [apply wf_skip; auto | reflexivity]. }
  destruct (1 >=? area n) eqn:Ea.
  - (* the smallest region: the leaf takes the index *)
    intros [= <-]. apply Z.geb_le in Ea.
    destruct n as [r a i | r a i ul ur ll lr]; simpl in *.
    + destruct W as (Ho & Ha & Hi & Hu).
      rewrite owner_app, Ec.
      assert ((a <=? 1) = true) as E by (apply Z.leb_le; lia).
      rewrite E. repeat split; try apply Ho; auto. lia.
    + destruct W as (_ & _ & _ & Hlt & _). lia.
  - (* a larger region: descend into the four quadrants *)
    assert (Hlt : 1 < area n) by (rewrite Z.geb_leb in Ea; apply Z.leb_gt in Ea; lia).
    destruct (wf_subdivide done n W Hlt)
      as (ul & ur & ll & lr & -> & Hr & Wul & Wur & Wll & Wlr).
    injection Hr as Eul Eur Ell Elr.
    intros H.
    apply bind_Ret in H. destruct H as (ul' & Hul & H).
    apply bind_Ret in H. destruct H as (ur' & Hur & H).
    apply bind_Ret in H. destruct H as (ll' & Hll & H).
    apply bind_Ret in H. destruct H as (lr' & Hlr & H).
    injection H as <-.
    destruct (IH _ _ Wul Hul) as [Wul' Rul].
    destruct (IH _ _ Wur Hur) as [Wur' Rur].
    destruct (IH _ _ Wll Hll) as [Wll' Rll].
    destruct (IH _ _ Wlr Hlr) as [Wlr' Rlr].
    split; [|reflexivity]. simpl.
    assert ((area n <=? 1) = false) as E by (apply Z.leb_gt; lia).
    rewrite E.
    pose proof (wf_ordered _ _ W) as Ho. pose proof (wf_area _ _ W) as Har.
    repeat split; try apply Ho; auto; congruence.
Qed.

(** With fuel above the half perimeter of the node, [addCell] returns. *)
Lemma addCell_returns (done : list Cell) (c : Cell) (i : Z) :
  forall fuel n,
  wf done n ->
  (depth_bound (rect n) <= fuel)%nat ->
  exists n', addCell fuel 1 n c i = Ret n'.
Proof.
  assert (G : forall fuel n, wf done n -> (1 <= fuel)%nat ->
            (rect_contains (rect n) c = true -> (depth_bound (rect n) <= fuel)%nat) ->
            exists n', addCell fuel 1 n c i = Ret n').
  { induction fuel as [|fuel IH]; intros n W H1 Hd; [lia|]. simpl.
    rewrite containsRect_rect.
    destruct (rect_contains (rect n) c) eqn:Ec; simpl; [|eauto].
    specialize (Hd eq_refl).
    destruct (1 >=? area n) eqn:Ea; [eauto|].
    assert (Hlt : 1 < area n) by (rewrite Z.geb_leb in Ea; apply Z.leb_gt in Ea; lia).
    destruct (wf_subdivide done n W Hlt)
      as (ul & ur & ll & lr & -> & Hr & Wul & Wur & Wll & Wlr).
    injection Hr as Eul Eur Ell Elr.
    pose proof (wf_ordered _ _ W) as Ho.
    rewrite (wf_area _ _ W) in Hlt.
    assert (Hf : (1 <= fuel)%nat).
    { unfold depth_bound in Hd. rewrite (area_ordered _ Ho) in Hlt.
      apply rect_contains_iff in Ec. lia. }
    assert (Hq : forall k, wf done k -> In (rect k) (quadrants (rect n)) ->
                 exists k', addCell fuel 1 k c i = Ret k').
    { intros k Wk Hin. apply IH; auto. intros Hc.
      pose proof (quadrant_depth (rect n) (rect k) c Ho Hin Hlt Hc). lia. }
    destruct (Hq ul Wul) as [ul' ->]; [rewrite Eul; simpl; auto|].
    destruct (Hq ur Wur) as [ur' ->]; [rewrite Eur; simpl; auto|].
    destruct (Hq ll Wll) as [ll' ->]; [rewrite Ell; simpl; auto|].
    destruct (Hq lr Wlr) as [lr' ->]; [rewrite Elr; simpl; auto 6|].
    simpl. eauto. }
  intros fuel n W Hd. apply G; auto. unfold depth_bound in Hd. lia.
Qed.

(* ================================================================= *)
(** ** [index] builds a well-shaped tree *)

Lemma addCells_wf (rest : list Cell) :
  forall fuel done n n',
  wf done n ->
  addCells fuel 1 n rest (Z.of_nat (List.length done)) = Ret n' ->
  wf (done ++ rest) n' /\ rect n' = rect n.
Proof.
  induction rest as [|c rest IH]; intros fuel done n n' W; simpl.
  - intros [= <-]. rewrite app_nil_r. auto.
  - intros H. apply bind_Ret in H. destruct H as (n1 & H1 & H).
    destruct (addCell_wf done c fuel n n1 W H1) as [W1 R1].
    replace (Z.of_nat (List.length done) + 1)
      with (Z.of_nat (List.length (done ++ [c]))) in H
      by (rewrite length_app; simpl; lia).
    destruct (IH fuel (done ++ [c]) n1 n' W1 H) as [W' R'].
    rewrite <- app_assoc in W'. simpl in W'. split; [auto | congruence].
Qed.

Lemma addCells_returns (rest : list Cell) :
  forall fuel done n,
  wf done n ->
  (depth_bound (rect n) <= fuel)%nat ->
  exists n', addCells fuel 1 n rest (Z.of_nat (List.length done)) = Ret n'.
Proof.
  induction rest as [|c rest IH]; intros fuel done n W Hd; simpl; [eauto|].
  destruct (addCell_returns done c (Z.of_nat (List.length done)) fuel n W Hd)
    as [n1 H1].
  rewrite H1. simpl.
  destruct (addCell_wf done c fuel n n1 W H1) as [W1 R1].
  replace (Z.of_nat (List.length done) + 1)
    with (Z.of_nat (List.length (done ++ [c])))
    by (rewrite length_app; simpl; lia).
  apply IH; auto. rewrite R1. auto.
Qed.

(** The running minima and maxima of the bounding box. *)
Lemma bbox_fold (cells : list Cell) :
  forall rMin rMax cMin cMax,
  exists a b c d,
    fold_left bbox_step cells (rMin, rMax, cMin, cMax) = (a, b, c, d) /\
    (a <= rMin /\ rMax <= b /\ c <= cMin /\ cMax <= d) /\
    (forall cell, In cell cells ->
       a <= row cell <= b /\ c <= col cell <= d) /\
    (forall m, m <= rMin -> (forall cell, In cell cells -> m <= row cell) -> m <= a) /\
    (forall m, m <= cMin -> (forall cell, In cell cells -> m <= col cell) -> m <= c).
Proof.
  induction cells as [|c0 cells IH]; intros rMin rMax cMin cMax; simpl.
  - exists rMin, rMax, cMin, cMax. repeat split; try lia; intros; try tauto.
  - destruct (IH (Z.min rMin (row c0)) (Z.max rMax (row c0))
                 (Z.min cMin (col c0)) (Z.max cMax (col c0)))
      as (a & b & c & d & E & B & Hin & Hr & Hc).
    exists a, b, c, d. split; [exact E|]. split; [lia|]. split; [|split].
    + intros cell [<-|H]; [lia | auto].
    + intros m Hm Hall. apply Hr; [|auto].
      specialize (Hall c0 (or_introl eq_refl)). lia.
    + intros m Hm Hall. apply Hc; [|auto].
      specialize (Hall c0 (or_introl eq_refl)). lia.
Qed.

(** The bounding box of cells of the non-negative quadrant is an ordered
    rectangle that contains each of them. *)
Lemma bbox_ordered (cell0 : Cell) (rest : list Cell) :
  let b := buildAxisAlignedBoundingBox cell0 (cell0 :: rest) in
  let r := mkRect (rowMin b) (colMin b) (rowMax b) (colMax b) in
  (forall c, In c (cell0 :: rest) -> rect_contains r c = true) /\
  ((forall c, In c (cell0 :: rest) -> nonneg c) -> ordered r).
Proof.
  unfold buildAxisAlignedBoundingBox.
  destruct (bbox_fold (cell0 :: rest) (row cell0) (row cell0) (col cell0) (col cell0))
    as (a & b & c & d & E & B & Hin & Hr & Hc).
  rewrite E. simpl. split.
  - intros cell H. apply rect_contains_iff. simpl.
    specialize (Hin cell H). lia.
  - intros Hnn. unfold ordered; simpl.
    assert (Ha : 0 <= a).
    { apply Hr; [apply (Hnn cell0); now left|]. intros cell Hcell. now apply Hnn. }
    assert (Hc0 : 0 <= c).
    { apply Hc; [apply (Hnn cell0); now left|]. intros cell Hcell. now apply Hnn. }
    lia.
Qed.

Lemma index_default (fuel : nat) (t : QuadTree) :
  QuadTree_index fuel t None = QuadTree_index fuel t (Some (leaves t)).
Proof. reflexivity. Qed.

(** The root [index] starts from: well-shaped over no cell, and around
    every cell of the list. *)
Lemma index_root (cells : list Cell) :
  (forall c, In c cells -> nonneg c) ->
  let b := match cells with
           | cell0 :: _ => buildAxisAlignedBoundingBox cell0 cells
           | [] => emptyAABB
           end in
  let root0 := newQTNode (rowMin b) (colMin b) (rowMax b) (colMax b) in
  wf [] root0 /\
  (forall c, In c cells -> rect_contains (rect root0) c = true) /\
  (depth_bound (rect root0) <= enough_fuel cells)%nat.
Proof.
  intros Hnn. destruct cells as [|cell0 rest].
  - simpl. split; [|split]; [|intros c []|].
    + unfold ordered; simpl. repeat split; lia.
    + unfold depth_bound; simpl. lia.
  - destruct (bbox_ordered cell0 rest) as [Hin Ho]. specialize (Ho Hnn).
    cbv zeta. split; [|split].
    + apply (wf_fresh [] (mkRect _ _ _ _)); auto.
    + exact Hin.
    + unfold enough_fuel. simpl rect. lia.
Qed.

(** Partial correctness of [index] in the non-negative quadrant. *)
Lemma index_wf (fuel : nat) (t t' : QuadTree) (cells : list Cell) :
  (forall c, In c cells -> nonneg c) ->
  minimumCellSize t = 1 ->
  QuadTree_index fuel t (Some cells) = Ret t' ->
  leaves t' = cells /\ minimumCellSize t' = 1 /\
  exists r, root t' = Some r /\ wf cells r /\
            (forall c, In c cells -> rect_contains (rect r) c = true).
Proof.
  intros Hnn Hm. unfold QuadTree_index. rewrite Hm.
  destruct (index_root cells Hnn) as (W0 & Hin & _).
  intros H. apply bind_Ret in H. destruct H as (r & Hr & [= <-]). simpl.
  destruct (addCells_wf cells fuel [] _ r W0 Hr) as [W R].
  repeat split; auto. exists r. repeat split; auto.
  intros c Hc. rewrite R. auto.
Qed.

(** Termination of [index] in the non-negative quadrant. *)
Lemma index_returns (fuel : nat) (t : QuadTree) (cells : list Cell) :
  (forall c, In c cells -> nonneg c) ->
  minimumCellSize t = 1 ->
  (enough_fuel cells <= fuel)%nat ->
  exists t', QuadTree_index fuel t (Some cells) = Ret t'.
Proof.
  intros Hnn Hm Hf. unfold QuadTree_index. rewrite Hm.
  destruct (index_root cells Hnn) as (W0 & _ & Hd).
  destruct (addCells_returns cells fuel [] _ W0) as [r Hr]; [lia|].
  simpl in Hr. rewrite Hr. simpl. eauto.
Qed.

(* ================================================================= *)
(** ** Leaves of a well-shaped tree *)

Lemma same_place_contains (r : Rect) (a b : Cell) :
  same_place a b -> rect_contains r a = rect_contains r b.
Proof.
  intros [Hr Hc].
  destruct (rect_contains r b) eqn:E.
  - apply rect_contains_iff. apply rect_contains_iff in E. lia.
  - apply rect_contains_false_iff. apply rect_contains_false_iff in E. lia.
Qed.

(** A rectangle of area 1 that contains a cell is the unit square of that
    cell. *)
Lemma unit_rect (r : Rect) (c : Cell) :
  ordered r -> QTNode_area r <= 1 -> rect_contains r c = true ->
  QTNode_area r = 1 /\ row c = x r /\ col c = y r.
Proof.
  intros Ho Ha Hc. rewrite (area_ordered r Ho) in *.
  apply rect_contains_iff in Hc. unfold ordered in Ho.
  assert (xx r - x r = 1 /\ yy r - y r = 1) by nia. nia.
Qed.

Lemma distinct_same (cells : list Cell) (a b : Cell) :
  distinct_places cells -> In a cells -> In b cells -> same_place a b -> a = b.
Proof.
  induction cells as [|c cells IH]; simpl; [tauto|].
  intros [Hc Hd] [<-|Ha] [<-|Hb] Hs; auto.
  - exfalso. exact (Hc b Hb Hs).
  - exfalso. apply (Hc a Ha). unfold same_place in *. intuition congruence.
Qed.

Lemma distinct_places_determine (cells : list Cell) :
  distinct_places cells -> places_determine cells.
Proof. intros Hd a b. now apply distinct_same. Qed.

(** The index a leaf of area at most 1 carries is the position of a cell
    at the leaf's corner. *)
Lemma leaf_cell (cells : list Cell) (m : QTNode) (i : Z) :
  wf cells m -> area m <= 1 -> index m = Some i ->
  area m = 1 /\
  validIndex cells (Some i) = true /\
  exists c, nth_error cells (Z.to_nat i) = Some c /\
            row c = x (rect m) /\ col c = y (rect m).
Proof.
  intros W Ha Hi.
  rewrite (wf_index _ _ W) in Hi.
  assert ((area m <=? 1) = true) as E by (apply Z.leb_le; lia).
  rewrite E in Hi.
  destruct (owner_some _ _ _ _ Hi) as (B & c & Hn & Hc & _).
  rewrite Z.sub_0_r in Hn.
  rewrite (wf_area _ _ W) in *.
  destruct (unit_rect _ c (wf_ordered _ _ W) Ha Hc) as (A1 & Hr & Hcl).
  split; [auto|]. split.
  - simpl. apply andb_true_iff. rewrite Z.geb_le, Z.leb_le. lia.
  - exists c. auto.
Qed.

(** A cell of the list that lies in a leaf of area at most 1 gives the leaf
    an index. *)
Lemma leaf_indexed (cells : list Cell) (m : QTNode) (c : Cell) :
  wf cells m -> area m <= 1 -> In c cells -> rect_contains (rect m) c = true ->
  exists i, index m = Some i.
Proof.
  intros W Ha Hin Hc. rewrite (wf_index _ _ W).
  assert ((area m <=? 1) = true) as E by (apply Z.leb_le; lia).
  rewrite E. destruct (owner 0 cells (rect m)) as [i|] eqn:Eo; [eauto|].
  rewrite (proj1 (owner_none _ _ _) Eo c Hin) in Hc. discriminate.
Qed.

(* ================================================================= *)
(** ** [search] on a well-shaped tree *)

Lemma search_found (cells : list Cell) (q : Cell) (m : QTNode) :
  forall n,
  wf cells n -> search_from 1 q n = Some m ->
  In m (nodes n) /\ wf cells m /\ area m = 1 /\
  rect_contains (rect m) q = true /\ index m <> None.
Proof.
  induction n as [r a i | r a i ul IHul ur IHur ll IHll lr IHlr]; intros W.
  - simpl. destruct (a =? 1) eqn:Ea; [|discriminate].
    apply Z.eqb_eq in Ea.
    rewrite containsRect_rect. simpl rect.
    destruct (rect_contains r q) eqn:Ec; simpl; [|discriminate].
    destruct i as [i|]; [|discriminate]. intros [= <-].
    simpl. repeat split; auto; try apply W. discriminate.
  - cbn [search_from area]. destruct (a =? 1) eqn:Ea.
    + apply Z.eqb_eq in Ea. destruct W as (_ & _ & _ & Hlt & _). simpl in Hlt. lia.
    + destruct W as (Ho & Ha & Hi & Hlt & Eul & Eur & Ell & Elr & Wul & Wur & Wll & Wlr).
      cbn [nodes].
      destruct (_ <=? xx (rect ul)); destruct (_ <=? yy (rect ul)); intros H.
      * destruct (IHul Wul H) as (Hin & R). split; [|exact R].
        right. apply in_or_app. auto.
      * destruct (IHll Wll H) as (Hin & R). split; [|exact R].
        right. apply in_or_app. right. apply in_or_app. right. apply in_or_app. auto.
      * destruct (IHur Wur H) as (Hin & R). split; [|exact R].
        right. apply in_or_app. right. apply in_or_app. auto.
      * destruct (IHlr Wlr H) as (Hin & R). split; [|exact R].
        right. apply in_or_app. right. apply in_or_app. right. apply in_or_app. auto.
Qed.

Lemma search_reaches (cells : list Cell) (q c : Cell) :
  In c cells -> same_place c q ->
  forall n,
  wf cells n -> rect_contains (rect n) q = true ->
  exists m, search_from 1 q n = Some m.
Proof.
  intros Hin Hs.
  induction n as [r a i | r a i ul IHul ur IHur ll IHll lr IHlr]; intros W Hq.
  - simpl in Hq. simpl. rewrite containsRect_rect. simpl rect. rewrite Hq. simpl.
    assert (Hc : rect_contains r c = true)
      by (rewrite (same_place_contains r c q Hs); exact Hq).
    destruct (Z.le_gt_cases a 1) as [Hle|Hgt].
    + destruct (leaf_indexed cells (Undivided r a i) c W Hle Hin Hc) as [k Hk].
      simpl in Hk. subst i.
      destruct W as (Ho & Ha & _).
      destruct (unit_rect r c Ho ltac:(simpl in Ha; lia) Hc) as (A1 & _).
      simpl in Ha. rewrite Ha, A1. simpl. eauto.
    + destruct W as (_ & _ & _ & Hu). simpl in Hu. specialize (Hu Hgt).
      rewrite (proj1 (owner_none _ _ _) Hu c Hin) in Hc. discriminate.
  - cbn [search_from area].
    destruct W as (Ho & Ha & Hi & Hlt & Eul & Eur & Ell & Elr & Wul & Wur & Wll & Wlr).
    simpl in Hlt, Hq, Ho.
    assert ((a =? 1) = false) as E by (apply Z.eqb_neq; lia). rewrite E.
    pose proof (split_p_ordered r Ho) as Bp. pose proof (split_q_ordered r Ho) as Bq.
    apply rect_contains_iff in Hq. unfold width, height.
    rewrite Eul. cbn [xx yy].
    destruct (row q + 1 <=? split_p r) eqn:Ep;
    destruct (col q + 1 <=? split_q r) eqn:Eq;
    rewrite ?Z.leb_le, ?Z.leb_gt in *.
    + apply IHul; auto. rewrite Eul. apply rect_contains_iff. simpl. lia.
    + apply IHll; auto. rewrite Ell. apply rect_contains_iff. simpl. lia.
    + apply IHur; auto. rewrite Eur. apply rect_contains_iff. simpl. lia.
    + apply IHlr; auto. rewrite Elr. apply rect_contains_iff. simpl. lia.
Qed.

(* ================================================================= *)
(** ** [findAliveInArea] on a well-shaped tree *)

Lemma isInsideRect_iff (c : Cell) (qx qy qxx qyy : Z) :
  Cell_isInsideRect c qx qy qxx qyy = true <->
  qx <= row c <= qxx /\ qy <= col c <= qyy.
Proof.
  unfold Cell_isInsideRect. rewrite !andb_true_iff, !Z.leb_le. lia.
Qed.

Lemma validIndex_at {A : Type} (array : list A) (i : option Z) :
  validIndex array i = true -> exists a, at_index array i = Some a.
Proof.
  destruct i as [k|]; simpl; [|discriminate].
  rewrite andb_true_iff, Z.geb_le, Z.leb_le. intros [H0 H1].
  destruct (nth_error array (Z.to_nat k)) eqn:E; [eauto|].
  apply nth_error_None in E. lia.
Qed.

Lemma at_index_In {A : Type} (array : list A) (i : option Z) (a : A) :
  at_index array i = Some a -> In a array.
Proof.
  destruct i as [k|]; simpl; [|discriminate]. apply nth_error_In.
Qed.

(** Whatever the tree, the range query returns cells of the leaves
    sequence that lie in the query box. *)
Lemma findAliveInArea_from_sound (lvs : list Cell) (qx qy qxx qyy : Z) (c : Cell) :
  forall n,
  In c (findAliveInArea_from lvs qx qy qxx qyy n) ->
  In c lvs /\ Cell_isInsideRect c qx qy qxx qyy = true.
Proof.
  induction n as [r a i | r a i ul IHul ur IHur ll IHll lr IHlr];
    cbn [findAliveInArea_from];
    destruct (negb (intersectsAABB _ qx qy qxx qyy)); try (intros []).
  - destruct (validIndex lvs i); [|intros []].
    destruct (at_index lvs i) as [cell|] eqn:E; [|intros []].
    destruct (Cell_isInsideRect cell qx qy qxx qyy) eqn:Ei; [|intros []].
    intros [<-|[]]. split; [eapply at_index_In; eauto | auto].
  - simpl. rewrite !in_app_iff. intros [H|[H|[H|H]]]; auto.
Qed.

(** On a well-shaped tree over cells with distinct places, the range query
    misses no cell of the query box. *)
Lemma findAliveInArea_from_complete (cells : list Cell) (qx qy qxx qyy : Z) (c : Cell) :
  places_determine cells -> In c cells ->
  Cell_isInsideRect c qx qy qxx qyy = true ->
  forall n,
  wf cells n -> rect_contains (rect n) c = true ->
  In c (findAliveInArea_from cells qx qy qxx qyy n).
Proof.
  intros Hd Hin Hq. apply isInsideRect_iff in Hq.
  assert (Hx : forall n, rect_contains (rect n) c = true ->
               negb (intersectsAABB n qx qy qxx qyy) = false).
  { intros n Hc. apply rect_contains_iff in Hc. apply negb_false_iff.
    unfold intersectsAABB. rewrite !andb_true_iff, !Z.leb_le, !Z.geb_le. lia. }
  induction n as [r a i | r a i ul IHul ur IHur ll IHll lr IHlr]; intros W Hc;
    cbn [findAliveInArea_from]; rewrite (Hx _ Hc).
  - simpl in Hc.
    destruct (Z.le_gt_cases a 1) as [Hle|Hgt].
    + destruct (leaf_indexed cells (Undivided r a i) c W Hle Hin Hc) as [k Hk].
      simpl in Hk. subst i.
      destruct (leaf_cell cells (Undivided r a (Some k)) k W Hle eq_refl)
        as (A1 & Hv & c' & Hn & Hr & Hcl).
      rewrite Hv. simpl at_index. rewrite Hn.
      assert (c' = c) as ->.
      { apply Hd; auto.
        - eapply nth_error_In; eauto.
        - destruct W as (Ho & Ha & _). simpl in Ha, Ho. simpl in A1.
          destruct (unit_rect r c Ho ltac:(lia) Hc) as (_ & Hr' & Hc').
          simpl in Hr, Hcl. unfold same_place. lia. }
      rewrite (proj2 (isInsideRect_iff c qx qy qxx qyy) Hq). now left.
    + destruct W as (_ & _ & _ & Hu). simpl in Hu. specialize (Hu Hgt).
      rewrite (proj1 (owner_none _ _ _) Hu c Hin) in Hc. discriminate.
  - destruct W as (Ho & Ha & Hi & Hlt & Eul & Eur & Ell & Elr & Wul & Wur & Wll & Wlr).
    simpl in Hc, Ho.
    pose proof (quadrant_pick r c Ho Hc) as Hp.
    simpl. rewrite !in_app_iff.
    destruct (row c + 1 <=? split_p r); destruct (col c + 1 <=? split_q r).
    + left. apply IHul; auto. rewrite Eul. exact Hp.
    + right; right; left. apply IHll; auto. rewrite Ell. exact Hp.
    + right; left. apply IHur; auto. rewrite Eur. exact Hp.
    + right; right; right. apply IHlr; auto. rewrite Elr. exact Hp.
Qed.

(* ================================================================= *)
(** ** Indexed trees of the non-negative quadrant *)

Lemma wf_nodes (cells : list Cell) (m : QTNode) :
  forall n, wf cells n -> In m (nodes n) -> wf cells m.
Proof.
  induction n as [r a i | r a i ul IHul ur IHur ll IHll lr IHlr]; intros W.
  - intros [<-|[]]. exact W.
  - cbn [nodes]. rewrite !in_app_iff || idtac.
    destruct W as (Ho & Ha & Hi & Hlt & Eul & Eur & Ell & Elr & Wul & Wur & Wll & Wlr).
    intros [<-|H].
    + simpl. repeat split; try apply Ho; auto.
    + rewrite !in_app_iff in H. destruct H as [H|[H|[H|H]]]; auto.
Qed.

Lemma wf_subdivided_no_index (cells : list Cell) (m : QTNode) :
  wf cells m -> subdivided m = true -> 1 < area m /\ index m = None.
Proof.
  destruct m as [r a i | r a i ul ur ll lr]; simpl; [discriminate|].
  intros (_ & _ & Hi & Hlt & _) _. split; [exact Hlt|].
  assert ((a <=? 1) = false) as E by (apply Z.leb_gt; lia).
  now rewrite E in Hi.
Qed.


(** Cells of the non-negative quadrant with distinct places, indexed: the
    range query returns the cells of the list that lie in the query box,
    all of them and no other. *)
Lemma index_findAliveInArea_nonneg (L : list Cell) (fuel : nat) (t : QuadTree)
      (qx qy qxx qyy : Z) :
  (forall c, In c L -> nonneg c) -> distinct_places L ->
  QuadTree_index fuel (newQuadTree L) None = Ret t ->
  exists found,
    findAliveInArea t qx qy qxx qyy = Ret found /\
    forall c, In c found <->
              In c L /\ qx <= row c <= qxx /\ qy <= col c <= qyy.
Proof.
  intros Hnn Hd H. rewrite index_default in H. simpl leaves in H.
  destruct (index_wf fuel (newQuadTree L) t L Hnn eq_refl H) as (El & Em & rt & Er & W & Hall).
  unfold findAliveInArea. rewrite El, Er.
  eexists. split; [reflexivity|]. intros c. split.
  - intros Hc. apply findAliveInArea_from_sound in Hc.
    rewrite isInsideRect_iff in Hc. tauto.
  - intros (Hin & Hq). apply findAliveInArea_from_complete; auto.
    + now apply distinct_places_determine.
    + apply isInsideRect_iff. tauto.
Qed.

(** Cells of the non-negative quadrant, indexed: a node carries an index
    exactly when its area is 1 and a cell of the list lies in it, and a
    subdivided node carries none. *)
Lemma index_leaf_nonneg (L : list Cell) (fuel : nat) (t : QuadTree) :
  (forall c, In c L -> nonneg c) ->
  QuadTree_index fuel (newQuadTree L) None = Ret t ->
  exists rt, root t = Some rt /\
    forall m, In m (nodes rt) ->
      (index m <> None <->
       area m = 1 /\ exists c, In c L /\ containsRect m c = true) /\
      (subdivided m = true -> index m = None /\ area m <> 1).
Proof.
  intros Hnn H. rewrite index_default in H. simpl leaves in H.
  destruct (index_wf fuel (newQuadTree L) t L Hnn eq_refl H) as (El & Em & rt & Er & W & Hall).
  exists rt. split; [exact Er|]. intros m Hm.
  pose proof (wf_nodes L m rt W Hm) as Wm. split; [split|].
  - intros Hi. destruct (index m) as [i|] eqn:Ei; [|congruence].
    assert (Hle : area m <= 1).
    { destruct (Z.le_gt_cases (area m) 1) as [Hle|Hgt]; [exact Hle|].
      rewrite (wf_index _ _ Wm) in Ei.
      assert ((area m <=? 1) = false) as E by (apply Z.leb_gt; lia).
      rewrite E in Ei. discriminate. }
    destruct (leaf_cell L m i Wm Hle Ei) as (A1 & Hv & c & Hn & Hr & Hcl).
    split; [exact A1|]. exists c. split; [eapply nth_error_In; eauto|].
    rewrite containsRect_rect. apply rect_contains_iff.
    pose proof (wf_ordered _ _ Wm) as Ho. unfold ordered in Ho.
    rewrite (wf_area _ _ Wm), (area_ordered _ (wf_ordered _ _ Wm)) in A1. nia.
  - intros (A1 & c & Hc & Hcm). rewrite containsRect_rect in Hcm.
    destruct (leaf_indexed L m c Wm ltac:(lia) Hc Hcm) as [i ->]. discriminate.
  - intros Hs. destruct (wf_subdivided_no_index L m Wm Hs). split; [auto | lia].
Qed.

(** In the non-negative quadrant [index] returns, given fuel above the
    half perimeter of the bounding box. *)
Lemma index_nonneg_returns (L : list Cell) (fuel : nat) :
  (forall c, In c L -> nonneg c) ->
  (enough_fuel L <= fuel)%nat ->
  exists t, QuadTree_index fuel (newQuadTree L) None = Ret t.
Proof.
  intros Hnn Hf. rewrite index_default. apply index_returns; auto.
Qed.

(* ================================================================= *)
(** ** [index] outside the non-negative quadrant *)

Lemma addCell_outside (n : QTNode) (c : Cell) (i : Z) (fuel : nat) :
  rect_contains (rect n) c = false ->
  addCell fuel 1 n c i = match fuel with O => OutOfFuel | S _ => Ret n end.
Proof.
  intros H. destruct fuel; simpl; [reflexivity|].
  rewrite containsRect_rect, H. reflexivity.
Qed.

(** Below -5 on both axes the lower right quadrant of a rectangle that ends
    at (-1, -1) is a larger rectangle that ends at (-1, -1): [addCell]
    descends without end. *)
Lemma addCell_descends_forever (i : Z) :
  forall fuel a b, a <= -5 -> b <= -5 ->
  addCell fuel 1 (newQTNode a b (-1) (-1)) (newCell (-5) (-5) (Some 1) None) i
  = OutOfFuel.
Proof.
  induction fuel as [|fuel IH]; intros a b Ha Hb; [reflexivity|].
  set (c := newCell (-5) (-5) (Some 1) None).
  set (r := mkRect a b (-1) (-1)).
  assert (Hp : split_p r <= a - 2).
  { unfold split_p, r; cbn [x xx]. change (Z.abs (-1)) with 1.
    rewrite (Z.abs_neq a) by lia.
    pose proof (Math_ceil_div_2_spec (1 - - a)). lia. }
  assert (Hq : split_q r <= b - 2).
  { unfold split_q, r; cbn [y yy]. change (Z.abs (-1)) with 1.
    rewrite (Z.abs_neq b) by lia.
    pose proof (Math_ceil_div_2_spec (1 - - b)). lia. }
  cbn [addCell]. rewrite containsRect_rect.
  assert (Hc : rect_contains (rect (newQTNode a b (-1) (-1))) c = true)
    by (apply rect_contains_iff; simpl; lia).
  rewrite Hc. cbn [negb].
  assert (Ha1 : (1 >=? area (newQTNode a b (-1) (-1))) = false).
  { rewrite Z.geb_leb. apply Z.leb_gt. cbn [area newQTNode].
    unfold QTNode_area; cbn [x y xx yy]. change (Z.abs (-1)) with 1.
    rewrite (Z.abs_neq a), (Z.abs_neq b) by lia. nia. }
  rewrite Ha1. cbn [subdivide newQTNode]. fold r. cbn [x y xx yy r].
  fold r.
  rewrite (addCell_outside (newQTNode a b (split_p r) (split_q r)) c i fuel)
    by (apply rect_contains_false_iff; simpl; lia).
  destruct fuel as [|fuel']; [reflexivity|]. cbn [bind].
  rewrite (addCell_outside (newQTNode (split_p r) b (-1) (split_q r)) c i (S fuel'))
    by (apply rect_contains_false_iff; simpl; lia).
  cbn [bind].
  rewrite (addCell_outside (newQTNode a (split_q r) (split_p r) (-1)) c i (S fuel'))
    by (apply rect_contains_false_iff; simpl; lia).
  cbn [bind].
  unfold c. rewrite (IH (split_p r) (split_q r)) by lia. reflexivity.
Qed.

(** On the cells (-5, -5) and (-2, -2) [index] never returns, whatever the
    fuel. *)
Lemma index_runs_forever (fuel : nat) :
  QuadTree_index fuel
    (newQuadTree [newCell (-5) (-5) (Some 1) None; newCell (-2) (-2) (Some 1) None])
    None = OutOfFuel.
Proof.
  pose proof (addCell_descends_forever 0 fuel (-5) (-5) ltac:(lia) ltac:(lia)) as E.
  unfold QuadTree_index. cbn [leaves newQuadTree minimumCellSize].
  change (buildAxisAlignedBoundingBox _ _) with (mkAABB (-5) (-5) (-1) (-1)).
  cbn [rowMin colMin rowMax colMax addCells].
  rewrite E. reflexivity.
Qed.

(* ================================================================= *)
(** ** The scan of the landscape *)

Lemma range_iff (n v : Z) : In v (range n) <-> 0 <= v < n.
Proof.
  unfold range. rewrite in_map_iff. split.
  - intros (k & <- & Hk). apply in_seq in Hk. lia.
  - intros H. exists (Z.to_nat v). split; [lia|]. apply in_seq. lia.
Qed.

(** A loop whose body only appends to its accumulator appends the
    concatenation of what the turns append. *)
Lemma forLoop_pieces {A : Type} (body : Z -> list A -> outcome (list A))
      (P : Z -> list A -> Prop) :
  (forall v acc acc', body v acc = Ret acc' -> exists l, acc' = acc ++ l /\ P v l) ->
  forall values acc out,
  forLoop body values acc = Ret out ->
  exists pieces, out = acc ++ List.concat pieces /\ Forall2 P values pieces.
Proof.
  intros Hb. induction values as [|v values IH]; intros acc out; simpl.
  - intros [= <-]. exists []. simpl. rewrite app_nil_r. auto.
  - intros H. apply bind_Ret in H. destruct H as (acc1 & H1 & H).
    destruct (Hb _ _ _ H1) as (l & -> & Hl).
    destruct (IH _ _ H) as (pieces & -> & Hp).
    exists (l :: pieces). simpl. rewrite app_assoc. auto.
Qed.

(** A loop whose body always returns, returns. *)
Lemma forLoop_returns {A : Type} (body : Z -> A -> outcome A) :
  (forall v acc, exists acc', body v acc = Ret acc') ->
  forall values acc, exists out, forLoop body values acc = Ret out.
Proof.
  intros Hb. induction values as [|v values IH]; intros acc; simpl; [eauto|].
  destruct (Hb v acc) as [acc1 ->]. simpl. apply IH.
Qed.

Lemma Forall2_In_l {A B : Type} (P : A -> B -> Prop) (l : list A) (l' : list B) (a : A) :
  Forall2 P l l' -> In a l -> exists b, In b l' /\ P a b.
Proof.
  induction 1 as [|a0 b0 l l' H0 H IH]; simpl; [tauto|].
  intros [<-|Ha]; [eauto|]. destruct (IH Ha) as (b & Hb & Hp). eauto.
Qed.

Lemma Forall2_In_r {A B : Type} (P : A -> B -> Prop) (l : list A) (l' : list B) (b : B) :
  Forall2 P l l' -> In b l' -> exists a, In a l /\ P a b.
Proof.
  induction 1 as [|a0 b0 l l' H0 H IH]; simpl; [tauto|].
  intros [<-|Hb]; [eauto|]. destruct (IH Hb) as (a & Ha & Hp). eauto.
Qed.

Lemma evaluateCell_appends (evaluate : Z -> CellState -> CellState)
      (tree : QuadTree) (r c : Z) (acc acc' : list Cell) :
  evaluateCell evaluate tree r c acc = Ret acc' ->
  exists l, acc' = acc ++ l /\ born evaluate tree r c l.
Proof.
  unfold evaluateCell, born. intros H.
  apply bind_Ret in H. destruct H as (n & Hn & H).
  apply bind_Ret in H. destruct H as (found & Hf & H).
  destruct (CellState_eqb (evaluate n (getState found)) ALIVE) eqn:E;
    injection H as <-.
  - eexists. split; [reflexivity|]. exists n, found. rewrite E. auto.
  - exists []. rewrite app_nil_r. split; [reflexivity|].
    exists n, found. rewrite E. auto.
Qed.

(** The list [scanLandscape] returns, row by row and position by
    position. *)
Lemma scanLandscape_pieces (evaluate : Z -> CellState -> CellState)
      (gm : GameManager) (cells : list Cell) :
  scanLandscape evaluate gm = Ret cells ->
  exists rows,
    cells = List.concat rows /\
    Forall2 (born_in_row evaluate (currentTree gm) (range (landscape_height gm)))
            (range (landscape_width gm)) rows.
Proof.
  unfold scanLandscape. intros H.
  apply (forLoop_pieces _
           (born_in_row evaluate (currentTree gm) (range (landscape_height gm))))
    in H.
  - destruct H as (rows & -> & Hr). exists rows. auto.
  - intros r acc acc' Hrow.
    apply (forLoop_pieces _ (born evaluate (currentTree gm) r)) in Hrow.
    + destruct Hrow as (pieces & -> & Hp). exists (List.concat pieces).
      split; [reflexivity|]. exists pieces. auto.
    + intros c a a'. apply evaluateCell_appends.
Qed.

(** Every position of the landscape has its turn, and what it appends is
    in the list. *)
Lemma scanLandscape_position (evaluate : Z -> CellState -> CellState)
      (gm : GameManager) (cells : list Cell) (r c : Z) :
  scanLandscape evaluate gm = Ret cells ->
  0 <= r < landscape_width gm -> 0 <= c < landscape_height gm ->
  exists l, born evaluate (currentTree gm) r c l /\ incl l cells.
Proof.
  intros H Hr Hc. apply scanLandscape_pieces in H.
  destruct H as (rows & -> & Hrows).
  destruct (Forall2_In_l _ _ _ r Hrows (proj2 (range_iff _ _) Hr))
    as (rowl & Hin & pieces & -> & Hp).
  destruct (Forall2_In_l _ _ _ c Hp (proj2 (range_iff _ _) Hc))
    as (l & Hl & Hb).
  exists l. split; [exact Hb|]. intros d Hd.
  apply in_concat. exists (List.concat pieces). split; [exact Hin|].
  apply in_concat. exists l. auto.
Qed.

(** Every cell of the list was appended at the turn of its position. *)
Lemma scanLandscape_cell (evaluate : Z -> CellState -> CellState)
      (gm : GameManager) (cells : list Cell) (d : Cell) :
  scanLandscape evaluate gm = Ret cells -> In d cells ->
  0 <= row d < landscape_width gm /\ 0 <= col d < landscape_height gm /\
  exists l, born evaluate (currentTree gm) (row d) (col d) l /\ In d l.
Proof.
  intros H Hd. apply scanLandscape_pieces in H.
  destruct H as (rows & -> & Hrows).
  apply in_concat in Hd. destruct Hd as (rowl & Hin & Hd).
  destruct (Forall2_In_r _ _ _ rowl Hrows Hin) as (r & Hr & pieces & -> & Hp).
  apply in_concat in Hd. destruct Hd as (l & Hl & Hd).
  destruct (Forall2_In_r _ _ _ l Hp Hl) as (c & Hc & Hb).
  apply range_iff in Hr. apply range_iff in Hc.
  assert (E : row d = r /\ col d = c).
  { destruct Hb as (n & found & _ & _ & ->).
    destruct (CellState_eqb _ ALIVE); [|destruct Hd].
    destruct Hd as [<-|[]]. auto. }
  destruct E as [-> ->]. repeat split; try lia. eauto.
Qed.

Lemma index_leaves (fuel : nat) (t t' : QuadTree) (cells : list Cell) :
  QuadTree_index fuel t (Some cells) = Ret t' -> leaves t' = cells.
Proof.
  unfold QuadTree_index. intros H.
  apply bind_Ret in H. destruct H as (r & _ & [= <-]). reflexivity.
Qed.

Lemma map_Cell_clone (cells : list Cell) : map Cell_clone cells = cells.
Proof.
  induction cells as [|[r c a s] cells IH]; simpl; [reflexivity|].
  now rewrite IH.
Qed.

(** Queries on a tree that has a root return. *)
Lemma queries_return (t : QuadTree) (rt : QTNode) (r c : Z) :
  root t = Some rt ->
  (exists n, findAliveNeighbors t r c = Ret n) /\
  (exists found, findCellIfAlive t r c = Ret found).
Proof.
  intros Hr. unfold findAliveNeighbors, findCellIfAlive, findAliveInArea, search.
  rewrite Hr. simpl. split; [eauto|].
  destruct (search_from _ _ rt) as [node|]; [|eauto].
  destruct (validIndex _ _); [|eauto].
  destruct (at_index _ _); eauto.
Qed.

(** On a current tree that has a root, the scan returns. *)
Lemma scanLandscape_returns (evaluate : Z -> CellState -> CellState)
      (gm : GameManager) (rt : QTNode) :
  root (currentTree gm) = Some rt ->
  exists cells, scanLandscape evaluate gm = Ret cells.
Proof.
  intros Hr. unfold scanLandscape.
  apply forLoop_returns. intros r acc.
  apply forLoop_returns. intros c acc'.
  unfold evaluateCell.
  destruct (queries_return _ rt r c Hr) as ([n ->] & [found ->]). simpl.
  destruct (CellState_eqb _ ALIVE); eauto.
Qed.

(* ================================================================= *)
(** ** The point lookup on an indexed tree *)


(* ================================================================= *)
(** ** The testable properties *)

(** C1.  After [index], [search] should find the leaf of every cell of the
    list.  On the list that holds the one cell (-1, 0) it does not: the
    bounding box (-1, 0, 0, 1) gets the area (|0| - |-1|) * (|1| - |0|) =
    -1, [addCell] tags the root as a leaf, and [search], which looks for a
    node of area 1, returns null for the cell that was indexed.  The count
    of alive cells is right. *)
Theorem C1_search_misses_cell_of_negative_row :
  forall fuel, exists t,
    QuadTree_index (S fuel) (newQuadTree [newCell (-1) 0 (Some 1) None]) None = Ret t /\
    leaves t = [newCell (-1) 0 (Some 1) None] /\
    aliveCellsCount t = 1 /\
    search t (newCell (-1) 0 (Some 1) None) = Ret None.
Proof.
  intros fuel. eexists. split; [reflexivity|]. repeat split.
Qed.

(** C2.  The range query should return every cell of the list that lies in
    the query box.  On the list (-1, 0), (0, 0) the bounding box
    (-1, 0, 1, 1) gets the area (|1| - |-1|) * 1 = 0, both cells are
    written to the root, the second overwrites the first, and the query
    over (-5, -5, 5, 5) returns the cell (0, 0) alone. *)
Theorem C2_range_query_loses_cell_of_negative_row :
  forall fuel, exists t,
    QuadTree_index (S fuel)
      (newQuadTree [newCell (-1) 0 (Some 1) None; newCell 0 0 (Some 1) None]) None
      = Ret t /\
    findAliveInArea t (-5) (-5) 5 5 = Ret [newCell 0 0 (Some 1) None].
Proof.
  intros fuel. eexists. split; reflexivity.
Qed.






(** The cells [evaluateCells] hands to the next tree lie in the
    non-negative quadrant. *)
Lemma evaluateCells_nonneg {Scene : Type} (push : Scene -> list Cell -> Scene)
      (fuel : nat) (gm gm' : GameManager) (scene scene' : Scene)
      (evaluate : Z -> CellState -> CellState) :
  evaluateCells push fuel gm scene evaluate = Ret (gm', scene') ->
  forall d, In d (leaves (nextTree gm')) -> nonneg d.
Proof.
  unfold evaluateCells. intros H.
  apply bind_Ret in H. destruct H as (cells & Hscan & H).
  apply bind_Ret in H. destruct H as (nt & Hidx & [= <- <-]).
  simpl nextTree. rewrite (index_leaves _ _ _ _ Hidx).
  intros d Hd. destruct (scanLandscape_cell _ _ _ d Hscan Hd) as (Hr & Hc & _).
  unfold nonneg. lia.
Qed.

(** On a current tree that has a root, and with fuel above the half
    perimeter of the landscape's next generation, [evaluateCells]
    returns. *)
Lemma evaluateCells_returns {Scene : Type} (push : Scene -> list Cell -> Scene)
      (gm : GameManager) (scene : Scene) (evaluate : Z -> CellState -> CellState)
      (rt : QTNode) :
  root (currentTree gm) = Some rt ->
  minimumCellSize (nextTree gm) = 1 ->
  exists fuel0, forall fuel, (fuel0 <= fuel)%nat ->
  exists gm' scene', evaluateCells push fuel gm scene evaluate = Ret (gm', scene').
Proof.
  intros Hr Hm.
  destruct (scanLandscape_returns evaluate gm rt Hr) as [cells Hscan].
  exists (enough_fuel cells). intros fuel Hf.
  unfold evaluateCells. rewrite Hscan. simpl.
  destruct (index_returns fuel (clear (nextTree gm)) cells) as [nt ->]; auto.
  - intros d Hd. destruct (scanLandscape_cell _ _ _ d Hscan Hd) as (Hr' & Hc & _).
    unfold nonneg. lia.
  - simpl. eauto.
Qed.

(** A place of the landscape gets at most one cell of the next
    generation. *)
Lemma scanLandscape_places (evaluate : Z -> CellState -> CellState)
      (gm : GameManager) (cells : list Cell) :
  scanLandscape evaluate gm = Ret cells -> places_determine cells.
Proof.
  intros Hscan a b Ha Hb [Er Ec].
  destruct (scanLandscape_cell _ _ _ a Hscan Ha)
    as (_ & _ & la & (n & found & Hn & Hf & ->) & Hina).
  destruct (scanLandscape_cell _ _ _ b Hscan Hb)
    as (_ & _ & lb & (n' & found' & Hn' & Hf' & ->) & Hinb).
  rewrite <- Er, <- Ec in Hn', Hf'. rewrite Hn in Hn'. rewrite Hf in Hf'.
  injection Hn' as <-. injection Hf' as <-.
  rewrite <- Er, <- Ec in Hinb.
  destruct (CellState_eqb _ ALIVE); [|destruct Hina].
  destruct Hina as [<-|[]]. destruct Hinb as [<-|[]]. reflexivity.
Qed.

(** C4.  After [evaluateCells], [activateNext] returns (given fuel above
    the half perimeter of the bounding box); the leaves of the new current
    tree are the leaves of the next tree as [evaluateCells] left it, cell
    by cell with the same coordinates, ages and states, and a range query
    on the new current tree returns exactly those of them that lie in the
    query box; the new next tree has no alive cell, and a range query on it
    returns nothing. *)
Theorem C4_activateNext_swaps_generations {Scene : Type}
        (push : Scene -> list Cell -> Scene)
        (fuel : nat) (gm gm1 : GameManager) (scene scene1 : Scene)
        (evaluate : Z -> CellState -> CellState) :
  evaluateCells push fuel gm scene evaluate = Ret (gm1, scene1) ->
  exists fuel2, forall f, (fuel2 <= f)%nat ->
  exists gm2,
    activateNext f gm1 = Ret gm2 /\
    leaves (currentTree gm2) = leaves (nextTree gm1) /\
    aliveCellsCount (nextTree gm2) = 0 /\
    forall qx qy qxx qyy,
      (exists found,
         findAliveInArea (currentTree gm2) qx qy qxx qyy = Ret found /\
         forall c, In c found <->
                   In c (leaves (nextTree gm1)) /\
                   qx <= row c <= qxx /\ qy <= col c <= qyy) /\
      findAliveInArea (nextTree gm2) qx qy qxx qyy = Ret [].
Proof.
  intros H. pose proof (evaluateCells_nonneg _ _ _ _ _ _ _ H) as Hnn.
  assert (Hpd : places_determine (leaves (nextTree gm1))).
  { unfold evaluateCells in H.
    apply bind_Ret in H. destruct H as (cells & Hscan & H).
    apply bind_Ret in H. destruct H as (nt & Hidx & [= <- <-]).
    simpl nextTree. rewrite (index_leaves _ _ _ _ Hidx).
    eapply scanLandscape_places; eauto. }
  exists (enough_fuel (leaves (nextTree gm1))). intros f Hf.
  unfold activateNext, QuadTree_clone. rewrite map_Cell_clone, index_default.
  simpl leaves.
  destruct (index_returns f (newQuadTree (leaves (nextTree gm1)))
              (leaves (nextTree gm1)) Hnn eq_refl Hf) as [cur Hcur].
  rewrite Hcur. simpl.
  destruct (index_wf f (newQuadTree (leaves (nextTree gm1))) cur _ Hnn eq_refl Hcur)
    as (El & _ & rt & Er & W & Hall).
  eexists. split; [reflexivity|]. simpl.
  split; [exact El|]. split; [reflexivity|].
  intros qx qy qxx qyy. split.
  - unfold findAliveInArea. rewrite Er, El.
    eexists. split; [reflexivity|]. intros c. split.
    + intros Hc. apply findAliveInArea_from_sound in Hc.
      rewrite isInsideRect_iff in Hc. tauto.
    + intros (Hin & Hq). apply findAliveInArea_from_complete; auto.
      apply isInsideRect_iff. tauto.
  - unfold findAliveInArea. simpl. now destruct (negb _).
Qed.

Lemma C4_activateNext_swaps_generations_witness :
  exists fuel2, forall f, (fuel2 <= f)%nat ->
  exists gm2,
    activateNext f corner_world_evaluated = Ret gm2 /\
    leaves (currentTree gm2) = leaves (nextTree corner_world_evaluated) /\
    aliveCellsCount (nextTree gm2) = 0 /\
    forall qx qy qxx qyy,
      (exists found,
         findAliveInArea (currentTree gm2) qx qy qxx qyy = Ret found /\
         forall c, In c found <->
                   In c (leaves (nextTree corner_world_evaluated)) /\
                   qx <= row c <= qxx /\ qy <= col c <= qyy) /\
      findAliveInArea (nextTree gm2) qx qy qxx qyy = Ret [].
Proof.
  apply (C4_activateNext_swaps_generations no_scene 5 corner_world
           corner_world_evaluated tt tt AlwayAliveEvaluator).
  vm_compute. reflexivity.
Defined.

(** C5.  Only a node of area 1 should carry a leaf index.  On the list
    (-1, 0), (0, 0) the root, of rectangle (-1, 0, 1, 1), two cells wide,
    gets the area (|1| - |-1|) * (|1| - |0|) = 0 and carries the index 1,
    that of the cell written last. *)
Theorem C5_leaf_index_on_node_two_cells_wide :
  forall fuel, exists t rt,
    QuadTree_index (S fuel)
      (newQuadTree [newCell (-1) 0 (Some 1) None; newCell 0 0 (Some 1) None]) None
      = Ret t /\
    root t = Some rt /\
    rect rt = mkRect (-1) 0 1 1 /\ area rt = 0 /\ index rt = Some 1.
Proof.
  intros fuel. do 2 eexists. split; [reflexivity|]. simpl. auto.
Qed.

(** C6.  The stored area should be |xx - x| * |yy - y|.  For the bounds
    (-1, 0, 0, 1), the bounding box of the one cell (-1, 0), the
    constructor stores (|0| - |-1|) * (|1| - |0|) = -1; the rectangle is
    the unit square, of area 1. *)
Theorem C6_area_of_negative_bounds :
  area (newQTNode (-1) 0 0 1) = -1 /\
  Z.abs (0 - (-1)) * Z.abs (1 - 0) = 1.
Proof. split; reflexivity. Qed.

(** C7.  The split point should be p = x + ceil((xx - x) / 2), q = y +
    ceil((yy - y) / 2).  For the bounds (-5, -5, -1, -1), the bounding box
    of the cells (-5, -5) and (-2, -2), [subdivide] splits at p = q = -5 +
    ceil((|-1| - |-5|) / 2) = -7, outside the rectangle, and not at
    -5 + ceil(4 / 2) = -3. *)
Theorem C7_split_point_of_negative_bounds :
  children (subdivide (newQTNode (-5) (-5) (-1) (-1))) =
    [ newQTNode (-5) (-5) (-7) (-7); newQTNode (-7) (-5) (-1) (-7);
      newQTNode (-5) (-7) (-7) (-1); newQTNode (-7) (-7) (-1) (-1) ] /\
  -5 + Math_ceil_div (-1 - (-5)) 2 = -3.
Proof. split; reflexivity. Qed.

(** C8.  On a tree whose root is null, [search] and [findAliveInArea]
    throw. *)
Theorem C8_queries_throw_on_null_root (t : QuadTree) (cell : Cell)
        (qx qy qxx qyy : Z) :
  root t = None ->
  search t cell = Throw "Cannot search a null tree." /\
  findAliveInArea t qx qy qxx qyy =
    Throw "Cannot perform a range query on an empty node.".
Proof.
  intros H. unfold search, findAliveInArea. rewrite H. split; reflexivity.
Qed.

Lemma C8_queries_throw_on_null_root_witness :
  search (clear (nextTree corner_world_evaluated)) (newCell 0 0 None None)
    = Throw "Cannot search a null tree." /\
  findAliveInArea (clear (nextTree corner_world_evaluated)) 0 0 1 1
    = Throw "Cannot perform a range query on an empty node.".
Proof.
  apply (C8_queries_throw_on_null_root
           (clear (nextTree corner_world_evaluated)) (newCell 0 0 None None) 0 0 1 1).
  reflexivity.
Defined.

(** The trees whose root is null: a tree that was never indexed, and a
    tree that was cleared. *)
Lemma null_roots (cells : list Cell) (t : QuadTree) :
  root (newQuadTree cells) = None /\ root QuadTree_empty = None /\
  root (clear t) = None.
Proof. repeat split. Qed.

(** The cells a range query returns sit at valid indices of leaves that
    are not subdivided. *)
Lemma findAliveInArea_from_valid (lvs : list Cell) (qx qy qxx qyy : Z) (c : Cell) :
  forall n,
  In c (findAliveInArea_from lvs qx qy qxx qyy n) ->
  exists node, In node (nodes n) /\ subdivided node = false /\
               validIndex lvs (index node) = true /\
               at_index lvs (index node) = Some c.
Proof.
  induction n as [r a i | r a i ul IHul ur IHur ll IHll lr IHlr];
    cbn [findAliveInArea_from];
    destruct (negb (intersectsAABB _ qx qy qxx qyy)); try (intros []).
  - destruct (validIndex lvs i) eqn:Ev; [|intros []].
    destruct (at_index lvs i) as [cell|] eqn:E; [|intros []].
    destruct (Cell_isInsideRect cell qx qy qxx qyy); [|intros []].
    intros [<-|[]]. exists (Undivided r a i). simpl. auto.
  - cbn [nodes]. simpl app. rewrite !in_app_iff.
    intros [H|[H|[H|H]]];
      [ destruct (IHul H) as (node & Hn & R)
      | destruct (IHur H) as (node & Hn & R)
      | destruct (IHll H) as (node & Hn & R)
      | destruct (IHlr H) as (node & Hn & R) ];
      exists node; (split; [|exact R]); right; rewrite !in_app_iff; auto.
Qed.

(** C9.  On a tree that has a root, whatever its nodes and leaves: when
    [search] finds no leaf, or finds one whose index is not a valid
    position of the leaves, [findCellIfAlive] returns the dead sentinel,
    whose coordinates are [Infinity] and whose state is DEAD;
    [findCellIfAlive] and [findAliveInArea] always return; a leaf without
    a valid index contributes nothing to a range query, and every cell of
    the result sits at the valid index of a leaf. *)
Theorem C9_invalid_index_is_not_found (t : QuadTree) (rt : QTNode) (r c : Z) :
  root t = Some rt ->
  ((search t (newCell r c None None) = Ret None \/
    exists node, search t (newCell r c None None) = Ret (Some node) /\
                 validIndex (leaves t) (index node) = false) ->
   findCellIfAlive t r c = Ret DeadCell) /\
  (row DeadCell = Infinity /\ col DeadCell = Infinity /\ state DeadCell = DEAD) /\
  (exists foundCell, findCellIfAlive t r c = Ret foundCell) /\
  (forall qx qy qxx qyy,
     exists found,
       findAliveInArea t qx qy qxx qyy = Ret found /\
       forall cell, In cell found ->
         exists node, In node (nodes rt) /\ subdivided node = false /\
                      validIndex (leaves t) (index node) = true /\
                      at_index (leaves t) (index node) = Some cell) /\
  (forall qx qy qxx qyy rc a i,
     validIndex (leaves t) i = false ->
     findAliveInArea_from (leaves t) qx qy qxx qyy (Undivided rc a i) = []).
Proof.
  intros Hr. split; [|split; [|split; [|split]]].
  - unfold findCellIfAlive. intros [-> | (node & -> & Hv)]; simpl.
    + reflexivity.
    + rewrite Hv. reflexivity.
  - repeat split.
  - apply (queries_return t rt r c Hr).
  - intros qx qy qxx qyy. unfold findAliveInArea. rewrite Hr.
    eexists. split; [reflexivity|]. intros cell.
    apply findAliveInArea_from_valid.
  - intros qx qy qxx qyy rc a i Hv. simpl. rewrite Hv.
    now destruct (negb _).
Qed.

Lemma C9_invalid_index_is_not_found_witness :
  findCellIfAlive stale_tree 0 0 = Ret DeadCell /\
  findAliveInArea stale_tree 0 0 5 5 = Ret [].
Proof.
  pose proof (C9_invalid_index_is_not_found stale_tree
                (Undivided (mkRect 0 0 1 1) 1 (Some 0)) 0 0 eq_refl)
    as (Hdead & _ & _ & _ & _).
  split.
  - apply Hdead. right. eexists. split; reflexivity.
  - reflexivity.
Defined.

(** C10.  [QuadTree.clone] of a null or undefined argument returns a fresh
    empty tree, whatever the fuel: no leaves, a null root, no alive
    cell. *)
Theorem C10_clone_of_null_is_empty (fuel : nat) :
  QuadTree_clone fuel None = Ret QuadTree_empty /\
  leaves QuadTree_empty = [] /\ root QuadTree_empty = None /\
  aliveCellsCount QuadTree_empty = 0.
Proof. repeat split. Qed.

(* ================================================================= *)
(** ** Fuel *)

Lemma addCell_more_fuel (mcs : Z) (c : Cell) (i : Z) :
  forall f n n', addCell f mcs n c i = Ret n' ->
  forall f', (f <= f')%nat -> addCell f' mcs n c i = Ret n'.
Proof.
  induction f as [|f IH]; intros n n' H f' Hf; [discriminate|].
  destruct f' as [|f']; [lia|]. simpl in *.
  destruct (negb (containsRect n c)); [exact H|].
  destruct (mcs >=? area n); [exact H|].
  destruct (subdivide n) as [r a j | r a j ul ur ll lr]; [exact H|].
  apply bind_Ret in H. destruct H as (ul' & Hul & H).
  apply bind_Ret in H. destruct H as (ur' & Hur & H).
  apply bind_Ret in H. destruct H as (ll' & Hll & H).
  apply bind_Ret in H. destruct H as (lr' & Hlr & H).
  assert (Hf' : (f <= f')%nat) by lia.
  rewrite (IH _ _ Hul _ Hf'), (IH _ _ Hur _ Hf'),
          (IH _ _ Hll _ Hf'), (IH _ _ Hlr _ Hf').
  exact H.
Qed.

Lemma addCells_more_fuel (mcs : Z) (f f' : nat) :
  (f <= f')%nat ->
  forall cells n i n', addCells f mcs n cells i = Ret n' ->
  addCells f' mcs n cells i = Ret n'.
Proof.
  intros Hf. induction cells as [|c cells IH]; intros n i n' H; simpl in *.
  - exact H.
  - apply bind_Ret in H. destruct H as (n1 & H1 & H).
    rewrite (addCell_more_fuel mcs c i f n n1 H1 f' Hf). simpl. auto.
Qed.

Lemma index_more_fuel (f f' : nat) (t t' : QuadTree) (liveCells : option (list Cell)) :
  (f <= f')%nat ->
  QuadTree_index f t liveCells = Ret t' -> QuadTree_index f' t liveCells = Ret t'.
Proof.
  intros Hf. unfold QuadTree_index. intros H.
  apply bind_Ret in H. destruct H as (r & Hr & H).
  rewrite (addCells_more_fuel _ f f' Hf _ _ _ _ Hr). exact H.
Qed.

(** Two runs of [index] that return, return the same tree. *)
Lemma index_one_result (f1 f2 : nat) (t t1 t2 : QuadTree)
      (liveCells : option (list Cell)) :
  QuadTree_index f1 t liveCells = Ret t1 ->
  QuadTree_index f2 t liveCells = Ret t2 -> t1 = t2.
Proof.
  intros H1 H2.
  apply (index_more_fuel f1 (Nat.max f1 f2)) in H1; [|lia].
  apply (index_more_fuel f2 (Nat.max f1 f2)) in H2; [|lia].
  congruence.
Qed.

Lemma index_indexed_over (fuel : nat) (t : QuadTree) (L : list Cell) :
  (forall c, In c L -> nonneg c) ->
  QuadTree_index fuel (newQuadTree L) None = Ret t -> indexed_over t L.
Proof.
  intros Hnn H. rewrite index_default in H. simpl leaves in H.
  exact (index_wf fuel (newQuadTree L) t L Hnn eq_refl H).
Qed.

(* ================================================================= *)
(** ** The bounding box *)

Lemma bbox_fold_attained (cells : list Cell) :
  forall rMin rMax cMin cMax,
  exists a b c d,
    fold_left bbox_step cells (rMin, rMax, cMin, cMax) = (a, b, c, d) /\
    (a = rMin \/ exists cell, In cell cells /\ a = row cell) /\
    (b = rMax \/ exists cell, In cell cells /\ b = row cell) /\
    (c = cMin \/ exists cell, In cell cells /\ c = col cell) /\
    (d = cMax \/ exists cell, In cell cells /\ d = col cell).
Proof.
  induction cells as [|c0 cells IH]; intros rMin rMax cMin cMax; simpl.
  - exists rMin, rMax, cMin, cMax. auto 6.
  - destruct (IH (Z.min rMin (row c0)) (Z.max rMax (row c0))
                 (Z.min cMin (col c0)) (Z.max cMax (col c0)))
      as (a & b & c & d & E & Ha & Hb & Hc & Hd).
    exists a, b, c, d. split; [exact E|].
    assert (G : forall v base cand,
              (v = cand \/ exists cell, In cell cells /\ v = row cell) ->
              (cand = base \/ cand = row c0) ->
              v = base \/ exists cell, (c0 = cell \/ In cell cells) /\ v = row cell).
    { intros v base cand [->|(cell & Hin & ->)] [->| ->]; eauto. }
    assert (G' : forall v base cand,
              (v = cand \/ exists cell, In cell cells /\ v = col cell) ->
              (cand = base \/ cand = col c0) ->
              v = base \/ exists cell, (c0 = cell \/ In cell cells) /\ v = col cell).
    { intros v base cand [->|(cell & Hin & ->)] [->| ->]; eauto. }
    repeat split.
    + apply (G _ _ _ Ha). lia.
    + apply (G _ _ _ Hb). lia.
    + apply (G' _ _ _ Hc). lia.
    + apply (G' _ _ _ Hd). lia.
Qed.

Lemma bbox_tight (cell0 : Cell) (rest : list Cell) :
  let L := cell0 :: rest in
  let b := buildAxisAlignedBoundingBox cell0 L in
  (forall c, In c L ->
     rowMin b <= row c < rowMax b /\ colMin b <= col c < colMax b) /\
  (exists c, In c L /\ row c = rowMin b) /\
  (exists c, In c L /\ row c + 1 = rowMax b) /\
  (exists c, In c L /\ col c = colMin b) /\
  (exists c, In c L /\ col c + 1 = colMax b).
Proof.
  cbv zeta. unfold buildAxisAlignedBoundingBox.
  destruct (bbox_fold (cell0 :: rest) (row cell0) (row cell0) (col cell0) (col cell0))
    as (a & b & c & d & E & B & Hin & _ & _).
  destruct (bbox_fold_attained (cell0 :: rest)
              (row cell0) (row cell0) (col cell0) (col cell0))
    as (a' & b' & c' & d' & E' & Ha & Hb & Hc & Hd).
  rewrite E in E'. injection E' as <- <- <- <-. rewrite E. simpl rowMin.
  simpl rowMax. simpl colMin. simpl colMax.
  split; [|repeat split].
  - intros cell H. specialize (Hin cell H). lia.
  - destruct Ha as [->|(cell & H & ->)]; [exists cell0; simpl; auto | eauto].
  - destruct Hb as [->|(cell & H & ->)]; [exists cell0; simpl; auto | eauto].
  - destruct Hc as [->|(cell & H & ->)]; [exists cell0; simpl; auto | eauto].
  - destruct Hd as [->|(cell & H & ->)]; [exists cell0; simpl; auto | eauto].
Qed.

(** X8.  The bounding box of a non-empty list of cells runs from the least
    row and the least column of the list to one past the greatest row and
    the greatest column: every cell lies in it, and each of its four sides
    is reached by a cell. *)
Theorem X8_bounding_box_is_tight (cell0 : Cell) (rest : list Cell) :
  let L := cell0 :: rest in
  let b := buildAxisAlignedBoundingBox cell0 L in
  (forall c, In c L ->
     rowMin b <= row c < rowMax b /\ colMin b <= col c < colMax b) /\
  (exists c, In c L /\ row c = rowMin b) /\
  (exists c, In c L /\ row c + 1 = rowMax b) /\
  (exists c, In c L /\ col c = colMin b) /\
  (exists c, In c L /\ col c + 1 = colMax b).
Proof. exact (bbox_tight cell0 rest). Qed.

(* ================================================================= *)
(** ** Queries on an indexed tree *)

Lemma unit_rect_eq (r : Rect) (c : Cell) :
  ordered r -> QTNode_area r <= 1 -> rect_contains r c = true ->
  r = mkRect (row c) (col c) (row c + 1) (col c + 1).
Proof.
  intros Ho Ha Hc. rewrite (area_ordered r Ho) in Ha.
  apply rect_contains_iff in Hc. unfold ordered in Ho.
  destruct r as [a b cc d]; simpl in *.
  assert (cc - a = 1 /\ d - b = 1) by nia.
  f_equal; lia.
Qed.

Lemma search_same_place (mcs : Z) (a b : Cell) :
  same_place a b ->
  forall n, search_from mcs a n = search_from mcs b n.
Proof.
  intros [Er Ec].
  induction n as [r0 a0 i0 | r0 a0 i0 ul IHul ur IHur ll IHll lr IHlr]; simpl.
  - rewrite !containsRect_rect.
    now rewrite (same_place_contains _ a b (conj Er Ec)).
  - rewrite !containsRect_rect.
    rewrite (same_place_contains _ a b (conj Er Ec)).
    rewrite IHul, IHur, IHll, IHlr, Er, Ec. reflexivity.
Qed.

(** On an indexed tree [search] finds, for a cell of the list, the leaf of
    its unit square; the leaf's index is the position of the last cell of
    the list at that place. *)
Lemma search_hit (t : QuadTree) (L : list Cell) (c : Cell) :
  indexed_over t L -> In c L ->
  exists m i c',
    search t c = Ret (Some m) /\
    rect m = mkRect (row c) (col c) (row c + 1) (col c + 1) /\
    subdivided m = false /\ area m = 1 /\ index m = Some i /\ 0 <= i /\
    nth_error L (Z.to_nat i) = Some c' /\ same_place c' c /\
    (forall j d, (Z.to_nat i < j)%nat -> nth_error L j = Some d ->
                 ~ same_place d c).
Proof.
  intros (El & Em & rt & Er & W & Hall) Hc.
  unfold search. rewrite Er, Em.
  destruct (search_reaches L c c Hc (conj eq_refl eq_refl) rt W (Hall c Hc))
    as [m Hm].
  destruct (search_found L c m rt W Hm) as (Hin & Wm & Am & Hcm & Him).
  destruct (index m) as [i|] eqn:Ei; [|congruence].
  pose proof (wf_index _ _ Wm) as Hi. rewrite Ei, Am in Hi. simpl in Hi.
  symmetry in Hi.
  destruct (owner_some _ _ _ _ Hi) as (B & c' & Hn & Hc' & Hlast).
  rewrite Z.sub_0_r in Hn, Hlast.
  pose proof (wf_ordered _ _ Wm) as Ho.
  assert (Ha : QTNode_area (rect m) <= 1) by (rewrite <- (wf_area _ _ Wm); lia).
  pose proof (unit_rect_eq _ c Ho Ha Hcm) as Rc.
  pose proof (unit_rect_eq _ c' Ho Ha Hc') as Rc'.
  exists m, i, c'. rewrite Hm.
  split; [reflexivity|]. split; [exact Rc|]. split.
  { destruct (subdivided m) eqn:Es; [|reflexivity].
    destruct (wf_subdivided_no_index L m Wm Es). lia. }
  split; [exact Am|]. split; [exact Ei|]. split; [lia|].
  split; [exact Hn|]. split.
  - rewrite Rc in Rc'. injection Rc' as E1 E2 _ _. unfold same_place. lia.
  - intros j d Hj Hd Hs. specialize (Hlast j d Hj Hd).
    rewrite (same_place_contains _ d c Hs), Hcm in Hlast. discriminate.
Qed.

(** On an indexed tree [search] finds nothing at a place where the list has
    no cell. *)
Lemma search_miss (t : QuadTree) (L : list Cell) (q : Cell) :
  indexed_over t L -> (forall c, In c L -> ~ same_place c q) ->
  search t q = Ret None.
Proof.
  intros (El & Em & rt & Er & W & Hall) Hq.
  unfold search. rewrite Er, Em. f_equal.
  destruct (search_from 1 q rt) as [m|] eqn:Hm; [|reflexivity]. exfalso.
  destruct (search_found L q m rt W Hm) as (Hin & Wm & Am & Hcm & Him).
  destruct (index m) as [i|] eqn:Ei; [|congruence].
  destruct (leaf_cell L m i Wm ltac:(lia) Ei) as (_ & Hv & c' & Hn & Hr & Hcl).
  destruct (unit_rect (rect m) q (wf_ordered _ _ Wm)
              ltac:(rewrite <- (wf_area _ _ Wm); lia) Hcm) as (_ & Hr' & Hc').
  apply (Hq c'); [eapply nth_error_In; eauto|]. unfold same_place. lia.
Qed.

(** On an indexed tree the point lookup returns the last cell of the list
    at the place asked for, and the dead sentinel where there is none. *)
Lemma lookup_hit (t : QuadTree) (L : list Cell) (c : Cell) :
  indexed_over t L -> In c L ->
  exists c', In c' L /\ same_place c' c /\
             findCellIfAlive t (row c) (col c) = Ret (asFound c').
Proof.
  intros HI Hc.
  destruct (search_hit t L c HI Hc)
    as (m & i & c' & Hs & _ & _ & _ & Hi & H0 & Hn & Hp & _).
  destruct HI as (El & Em & _).
  exists c'. split; [eapply nth_error_In; eauto|]. split; [exact Hp|].
  unfold findCellIfAlive.
  assert (Hs' : search t (newCell (row c) (col c) None None) = Ret (Some m)).
  { rewrite <- Hs. unfold search. destruct (root t); [|reflexivity].
    f_equal. apply search_same_place. split; reflexivity. }
  rewrite Hs'. simpl. rewrite Hi, El. simpl.
  assert (Hlt : (Z.to_nat i < List.length L)%nat)
    by (apply nth_error_Some; congruence).
  assert ((i >=? 0) && (i <=? Z.of_nat (List.length L) - 1) = true) as ->.
  { apply andb_true_iff. rewrite Z.geb_le, Z.leb_le. lia. }
  rewrite Hn. reflexivity.
Qed.

Lemma lookup_miss (t : QuadTree) (L : list Cell) (r k : Z) :
  indexed_over t L -> (forall c, In c L -> ~ (row c = r /\ col c = k)) ->
  findCellIfAlive t r k = Ret DeadCell.
Proof.
  intros HI Hno. unfold findCellIfAlive.
  rewrite (search_miss t L (newCell r k None None) HI); [reflexivity|].
  intros c Hc [Hr Hk]. apply (Hno c Hc). simpl in *. auto.
Qed.

(** The cells a range query finds below a node lie in the node. *)
Lemma findAliveInArea_from_inside (cells : list Cell) (qx qy qxx qyy : Z) (c : Cell) :
  forall n, wf cells n ->
  In c (findAliveInArea_from cells qx qy qxx qyy n) ->
  rect_contains (rect n) c = true.
Proof.
  induction n as [r a i | r a i ul IHul ur IHur ll IHll lr IHlr]; intros W;
    cbn [findAliveInArea_from];
    destruct (negb (intersectsAABB _ qx qy qxx qyy)); try (intros []).
  - destruct (validIndex cells i) eqn:Ev; [|intros []].
    destruct (at_index cells i) as [cell|] eqn:E; [|intros []].
    destruct (Cell_isInsideRect cell qx qy qxx qyy); [|intros []].
    intros [<-|[]]. destruct i as [k|]; [|discriminate].
    pose proof (wf_index _ _ W) as Hi. simpl in Hi.
    destruct (a <=? 1); [|discriminate]. symmetry in Hi.
    destruct (owner_some _ _ _ _ Hi) as (_ & c' & Hn & Hc' & _).
    rewrite Z.sub_0_r in Hn. simpl in E. rewrite E in Hn.
    injection Hn as <-. exact Hc'.
  - destruct W as (Ho & Ha & Hi & Hlt & Eul & Eur & Ell & Elr & Wul & Wur & Wll & Wlr).
    simpl rect in *. simpl app. rewrite !in_app_iff.
    intros [H|[H|[H|H]]].
    + apply (quadrant_contains r (rect ul)); auto.
      rewrite Eul; simpl; auto.
    + apply (quadrant_contains r (rect ur)); auto.
      rewrite Eur; simpl; auto.
    + apply (quadrant_contains r (rect ll)); auto.
      rewrite Ell; simpl; auto.
    + apply (quadrant_contains r (rect lr)); auto.
      rewrite Elr; simpl; auto 6.
Qed.

(** A range query on a well-shaped tree returns no cell twice. *)
Lemma findAliveInArea_from_NoDup (cells : list Cell) (qx qy qxx qyy : Z) :
  forall n, wf cells n ->
  NoDup (findAliveInArea_from cells qx qy qxx qyy n).
Proof.
  induction n as [r a i | r a i ul IHul ur IHur ll IHll lr IHlr]; intros W;
    cbn [findAliveInArea_from];
    destruct (negb (intersectsAABB _ qx qy qxx qyy)).
  - constructor.
  - destruct (validIndex cells i); [|constructor].
    destruct (at_index cells i) as [cell|]; [|constructor].
    destruct (Cell_isInsideRect cell qx qy qxx qyy); [|constructor].
    constructor; [intros [] | constructor].
  - constructor.
  - pose proof W as W0.
    destruct W as (Ho & Ha & Hi & Hlt & Eul & Eur & Ell & Elr & Wul & Wur & Wll & Wlr).
    simpl rect in *. simpl app.
    pose proof (split_p_ordered r Ho) as Bp.
    pose proof (split_q_ordered r Ho) as Bq.
    assert (Iul := fun c => findAliveInArea_from_inside cells qx qy qxx qyy c ul Wul).
    assert (Iur := fun c => findAliveInArea_from_inside cells qx qy qxx qyy c ur Wur).
    assert (Ill := fun c => findAliveInArea_from_inside cells qx qy qxx qyy c ll Wll).
    assert (Ilr := fun c => findAliveInArea_from_inside cells qx qy qxx qyy c lr Wlr).
    rewrite Eul in Iul. rewrite Eur in Iur. rewrite Ell in Ill. rewrite Elr in Ilr.
    apply NoDup_app; [auto| |].
    2:{ intros c H1 H2. apply Iul in H1. apply rect_contains_iff in H1. simpl in H1.
        rewrite !in_app_iff in H2. destruct H2 as [H2|[H2|H2]];
          [apply Iur in H2|apply Ill in H2|apply Ilr in H2];
          apply rect_contains_iff in H2; simpl in H2; lia. }
    apply NoDup_app; [auto| |].
    2:{ intros c H1 H2. apply Iur in H1. apply rect_contains_iff in H1. simpl in H1.
        rewrite !in_app_iff in H2. destruct H2 as [H2|H2];
          [apply Ill in H2|apply Ilr in H2];
          apply rect_contains_iff in H2; simpl in H2; lia. }
    apply NoDup_app; [auto|auto|].
    intros c H1 H2. apply Ill in H1. apply rect_contains_iff in H1. simpl in H1.
    apply Ilr in H2. apply rect_contains_iff in H2. simpl in H2. lia.
Qed.

(** On a tree indexed over cells at distinct places a range query returns,
    once each, the cells of the list that lie in the query box. *)
Lemma range_query_exact (t : QuadTree) (L : list Cell) (qx qy qxx qyy : Z) :
  indexed_over t L -> places_determine L ->
  exists found,
    findAliveInArea t qx qy qxx qyy = Ret found /\ NoDup found /\
    forall c, In c found <->
              In c L /\ Cell_isInsideRect c qx qy qxx qyy = true.
Proof.
  intros (El & Em & rt & Er & W & Hall) Hd.
  unfold findAliveInArea. rewrite El, Er.
  eexists. split; [reflexivity|]. split.
  - apply findAliveInArea_from_NoDup; auto.
  - intros c. split.
    + apply findAliveInArea_from_sound.
    + intros (Hin & Hq). apply findAliveInArea_from_complete; auto.
Qed.

(* ================================================================= *)
(** ** The quad tree in the non-negative quadrant *)

Ltac each_cell H :=
  repeat (destruct H as [<-|H]); [..|destruct H].

Ltac cells_nonneg :=
  let c := fresh "c" in let H := fresh "H" in
  intros c H; each_cell H; unfold nonneg; simpl; lia.

Ltac cells_distinct :=
  simpl; repeat split;
  let d := fresh "d" in let H := fresh "H" in
  intros d H; each_cell H; unfold same_place; simpl; lia.

Lemma distinct_places_NoDup (cells : list Cell) :
  distinct_places cells -> NoDup cells.
Proof.
  induction cells as [|c cells IH]; simpl; [constructor|].
  intros [Hc Hd]. constructor; auto.
  intros Hin. apply (Hc c Hin). split; reflexivity.
Qed.

(** X1.  On cells of the non-negative quadrant [index] returns as soon as
    the fuel reaches the half perimeter of the bounding box, and every run
    that returns gives the same tree, which holds the list as its leaves
    and has a root. *)
Theorem X1_index_returns_one_tree (L : list Cell) :
  (forall c, In c L -> nonneg c) ->
  exists t,
    (forall fuel, (enough_fuel L <= fuel)%nat ->
       QuadTree_index fuel (newQuadTree L) None = Ret t) /\
    (forall fuel t', QuadTree_index fuel (newQuadTree L) None = Ret t' -> t' = t) /\
    leaves t = L /\ root t <> None /\ aliveCellsCount t = Z.of_nat (List.length L).
Proof.
  intros Hnn.
  destruct (index_nonneg_returns L (enough_fuel L) Hnn (le_n _)) as [t Ht].
  exists t. split; [|split].
  - intros fuel Hf. exact (index_more_fuel _ _ _ _ _ Hf Ht).
  - intros fuel t' Ht'. exact (index_one_result _ _ _ _ _ _ Ht' Ht).
  - destruct (index_indexed_over _ _ _ Hnn Ht) as (El & _ & rt & Er & _).
    unfold aliveCellsCount. rewrite El, Er. repeat split. discriminate.
Qed.

Lemma X1_index_returns_one_tree_witness :
  exists t,
    (forall fuel, (enough_fuel corner_seed <= fuel)%nat ->
       QuadTree_index fuel (newQuadTree corner_seed) None = Ret t) /\
    (forall fuel t',
       QuadTree_index fuel (newQuadTree corner_seed) None = Ret t' -> t' = t) /\
    leaves t = corner_seed /\ root t <> None /\
    aliveCellsCount t = Z.of_nat (List.length corner_seed).
Proof.
  apply (X1_index_returns_one_tree corner_seed). cells_nonneg.
Defined.

(** X2.  After [index] on cells of the non-negative quadrant, [search]
    returns for every cell of the list the leaf whose rectangle is the unit
    square of the cell; the leaf is not subdivided and its index is the
    position of the last cell of the list at that place (a later entry at
    the same place overwrites an earlier one).  At a place where the list
    has no cell [search] returns null. *)
Theorem X2_search_finds_last_cell_at_place (L : list Cell) (fuel : nat) (t : QuadTree) :
  (forall c, In c L -> nonneg c) ->
  QuadTree_index fuel (newQuadTree L) None = Ret t ->
  (forall c, In c L ->
     exists m i c',
       search t c = Ret (Some m) /\
       rect m = mkRect (row c) (col c) (row c + 1) (col c + 1) /\
       subdivided m = false /\ area m = 1 /\ index m = Some i /\ 0 <= i /\
       nth_error L (Z.to_nat i) = Some c' /\ same_place c' c /\
       (forall j d, (Z.to_nat i < j)%nat -> nth_error L j = Some d ->
                    ~ same_place d c)) /\
  (forall q, (forall c, In c L -> ~ same_place c q) -> search t q = Ret None).
Proof.
  intros Hnn H. pose proof (index_indexed_over _ _ _ Hnn H) as HI. split.
  - intros c Hc. exact (search_hit t L c HI Hc).
  - intros q Hq. exact (search_miss t L q HI Hq).
Qed.

Lemma X2_search_finds_last_cell_at_place_witness :
  (forall c, In c corner_seed ->
     exists m i c',
       search corner_tree c = Ret (Some m) /\
       rect m = mkRect (row c) (col c) (row c + 1) (col c + 1) /\
       subdivided m = false /\ area m = 1 /\ index m = Some i /\ 0 <= i /\
       nth_error corner_seed (Z.to_nat i) = Some c' /\ same_place c' c /\
       (forall j d, (Z.to_nat i < j)%nat -> nth_error corner_seed j = Some d ->
                    ~ same_place d c)) /\
  (forall q, (forall c, In c corner_seed -> ~ same_place c q) ->
     search corner_tree q = Ret None).
Proof.
  apply (X2_search_finds_last_cell_at_place corner_seed 5 corner_tree).
  - cells_nonneg.
  - vm_compute. reflexivity.
Defined.

(** X3.  After [index] on cells of the non-negative quadrant at pairwise
    distinct places, [findAliveInArea] returns the cells of the list that
    lie in the query box, each of them once and no other cell. *)
Theorem X3_range_query_exact (L : list Cell) (fuel : nat) (t : QuadTree)
        (qx qy qxx qyy : Z) :
  (forall c, In c L -> nonneg c) -> distinct_places L ->
  QuadTree_index fuel (newQuadTree L) None = Ret t ->
  exists found,
    findAliveInArea t qx qy qxx qyy = Ret found /\ NoDup found /\
    forall c, In c found <->
              In c L /\ qx <= row c <= qxx /\ qy <= col c <= qyy.
Proof.
  intros Hnn Hd H. pose proof (index_indexed_over _ _ _ Hnn H) as HI.
  destruct (range_query_exact t L qx qy qxx qyy HI (distinct_places_determine _ Hd))
    as (found & Hf & Hn & Hin).
  exists found. split; [exact Hf|]. split; [exact Hn|].
  intros c. rewrite Hin, isInsideRect_iff. tauto.
Qed.

Lemma X3_range_query_exact_witness :
  exists found,
    findAliveInArea corner_tree 1 0 1 1 = Ret found /\ NoDup found /\
    forall c, In c found <->
              In c corner_seed /\ 1 <= row c <= 1 /\ 0 <= col c <= 1.
Proof.
  apply (X3_range_query_exact corner_seed 5 corner_tree 1 0 1 1).
  - cells_nonneg.
  - cells_distinct.
  - vm_compute. reflexivity.
Defined.

(** X4.  After [index] on cells of the non-negative quadrant, a node of the
    tree carries an index exactly when its stored area is 1 and a cell of
    the list lies in it; a subdivided node carries no index and has an
    area other than 1. *)
Theorem X4_only_unit_leaves_carry_an_index (L : list Cell) (fuel : nat) (t : QuadTree) :
  (forall c, In c L -> nonneg c) ->
  QuadTree_index fuel (newQuadTree L) None = Ret t ->
  exists rt, root t = Some rt /\
    forall m, In m (nodes rt) ->
      (index m <> None <->
       area m = 1 /\ exists c, In c L /\ containsRect m c = true) /\
      (subdivided m = true -> index m = None /\ area m <> 1).
Proof. exact (index_leaf_nonneg L fuel t). Qed.

Lemma X4_only_unit_leaves_carry_an_index_witness :
  exists rt, root corner_tree = Some rt /\
    forall m, In m (nodes rt) ->
      (index m <> None <->
       area m = 1 /\ exists c, In c corner_seed /\ containsRect m c = true) /\
      (subdivided m = true -> index m = None /\ area m <> 1).
Proof.
  apply (X4_only_unit_leaves_carry_an_index corner_seed 5 corner_tree).
  - cells_nonneg.
  - vm_compute. reflexivity.
Defined.

(** X6.  After [index] on cells of the non-negative quadrant,
    [findCellIfAlive] at the place of a cell of the list returns a cell of
    the list at that place (the cell itself when the places are pairwise
    distinct), and at a place where the list has no cell it returns the
    dead sentinel. *)
Theorem X6_point_lookup_round_trip (L : list Cell) (fuel : nat) (t : QuadTree) :
  (forall c, In c L -> nonneg c) ->
  QuadTree_index fuel (newQuadTree L) None = Ret t ->
  (forall c, In c L ->
     exists c', In c' L /\ same_place c' c /\
                findCellIfAlive t (row c) (col c) = Ret (asFound c') /\
                (distinct_places L -> c' = c)) /\
  (forall r k, (forall c, In c L -> ~ (row c = r /\ col c = k)) ->
     findCellIfAlive t r k = Ret DeadCell).
Proof.
  intros Hnn H. pose proof (index_indexed_over _ _ _ Hnn H) as HI. split.
  - intros c Hc. destruct (lookup_hit t L c HI Hc) as (c' & Hin & Hs & Hf).
    exists c'. repeat split; auto; try apply Hs.
    intros Hd. apply (distinct_same L); auto.
  - intros r k Hno. exact (lookup_miss t L r k HI Hno).
Qed.

Lemma X6_point_lookup_round_trip_witness :
  (forall c, In c corner_seed ->
     exists c', In c' corner_seed /\ same_place c' c /\
                findCellIfAlive corner_tree (row c) (col c) = Ret (asFound c') /\
                (distinct_places corner_seed -> c' = c)) /\
  (forall r k, (forall c, In c corner_seed -> ~ (row c = r /\ col c = k)) ->
     findCellIfAlive corner_tree r k = Ret DeadCell).
Proof.
  apply (X6_point_lookup_round_trip corner_seed 5 corner_tree).
  - cells_nonneg.
  - vm_compute. reflexivity.
Defined.

Lemma count_neighbors (r k : Z) (cells : list Cell) :
  forall n,
  fold_left
    (fun count cell =>
       if negb ((row cell =? r) && (col cell =? k)) then count + 1 else count)
    cells n
  = n + Z.of_nat (List.length
                    (filter (fun cell => negb ((row cell =? r) && (col cell =? k)))
                            cells)).
Proof.
  induction cells as [|c cells IH]; intros n; simpl; [lia|].
  rewrite IH. destruct (negb _); simpl; lia.
Qed.

(** On a tree indexed over cells at distinct places the neighbor count is
    the number of cells of the list in the 3 x 3 window, the centre
    apart. *)
Lemma neighbors_counted (t : QuadTree) (L : list Cell) (r k : Z) :
  indexed_over t L -> distinct_places L ->
  findAliveNeighbors t r k =
  Ret (Z.of_nat (List.length (filter (is_neighbor r k) L))).
Proof.
  intros HI Hd.
  destruct (range_query_exact t L (r - 1) (k - 1) (r + 1) (k + 1) HI
              (distinct_places_determine _ Hd)) as (found & Hf & Hn & Hin).
  unfold findAliveNeighbors. rewrite Hf. simpl. f_equal.
  rewrite count_neighbors. simpl. f_equal.
  apply Permutation_length.
  apply NoDup_Permutation.
  - apply NoDup_filter. exact Hn.
  - apply NoDup_filter. apply distinct_places_NoDup. exact Hd.
  - intros c. rewrite !filter_In, Hin. unfold is_neighbor.
    rewrite andb_true_iff. tauto.
Qed.

(** X7.  After [index] on cells of the non-negative quadrant at pairwise
    distinct places, [findAliveNeighbors(tree, r, k)] is the number of
    cells of the list in the 3 x 3 window around (r, k), a cell at (r, k)
    itself not counted. *)
Theorem X7_neighbor_count (L : list Cell) (fuel : nat) (t : QuadTree) (r k : Z) :
  (forall c, In c L -> nonneg c) -> distinct_places L ->
  QuadTree_index fuel (newQuadTree L) None = Ret t ->
  findAliveNeighbors t r k =
  Ret (Z.of_nat (List.length (filter (is_neighbor r k) L))).
Proof.
  intros Hnn Hd H. apply neighbors_counted; auto.
  eapply index_indexed_over; eauto.
Qed.

Lemma X7_neighbor_count_witness :
  findAliveNeighbors corner_tree 1 1 =
  Ret (Z.of_nat (List.length (filter (is_neighbor 1 1) corner_seed))).
Proof.
  apply (X7_neighbor_count corner_seed 5 corner_tree 1 1).
  - cells_nonneg.
  - cells_distinct.
  - vm_compute. reflexivity.
Defined.

(* ================================================================= *)
(** ** The quad tree in the negative quadrant *)

(** In a rectangle of the non-positive quadrant the split point lies at or
    before the upper left corner: the cell falls into the lower right
    quadrant, which is no smaller than the rectangle. *)
Lemma addCell_never_returns (c : Cell) (i : Z) :
  forall fuel a b cc d,
  a <= row c -> row c + 1 <= cc -> cc <= 0 ->
  b <= col c -> col c + 1 <= d -> d <= 0 ->
  1 < (cc - a) * (d - b) ->
  addCell fuel 1 (newQTNode a b cc d) c i = OutOfFuel.
Proof.
  induction fuel as [|fuel IH]; intros a b cc d Ha Hcc Hcc0 Hb Hd Hd0 Har;
    [reflexivity|].
  set (r := mkRect a b cc d).
  assert (Hp : split_p r <= a).
  { unfold split_p, r; cbn [x xx].
    rewrite (Z.abs_neq a), (Z.abs_neq cc) by lia.
    pose proof (Math_ceil_div_2_spec (- cc - - a)). lia. }
  assert (Hq : split_q r <= b).
  { unfold split_q, r; cbn [y yy].
    rewrite (Z.abs_neq b), (Z.abs_neq d) by lia.
    pose proof (Math_ceil_div_2_spec (- d - - b)). lia. }
  cbn [addCell]. rewrite containsRect_rect.
  assert (Hc : rect_contains (rect (newQTNode a b cc d)) c = true)
    by (apply rect_contains_iff; simpl; lia).
  rewrite Hc. cbn [negb].
  assert (Ha1 : (1 >=? area (newQTNode a b cc d)) = false).
  { rewrite Z.geb_leb. apply Z.leb_gt. cbn [area newQTNode].
    unfold QTNode_area; cbn [x y xx yy].
    rewrite (Z.abs_neq a), (Z.abs_neq b), (Z.abs_neq cc), (Z.abs_neq d) by lia.
    nia. }
  rewrite Ha1. cbn [subdivide newQTNode]. fold r. cbn [x y xx yy r]. fold r.
  rewrite (addCell_outside (newQTNode a b (split_p r) (split_q r)) c i fuel)
    by (apply rect_contains_false_iff; simpl; lia).
  destruct fuel as [|fuel']; [reflexivity|]. cbn [bind].
  rewrite (addCell_outside (newQTNode (split_p r) b cc (split_q r)) c i (S fuel'))
    by (apply rect_contains_false_iff; simpl; lia).
  cbn [bind].
  rewrite (addCell_outside (newQTNode a (split_q r) (split_p r) d) c i (S fuel'))
    by (apply rect_contains_false_iff; simpl; lia).
  cbn [bind].
  rewrite (IH (split_p r) (split_q r) cc d) by nia. reflexivity.
Qed.

(** X5.  On a list of cells that all have a negative row and a negative
    column and do not all sit at one place, [index] never returns: the
    recursion of [addCell] on the first cell goes on with rectangles that
    do not shrink, whatever the fuel. *)
Theorem X5_index_never_returns_in_negative_quadrant
        (cell0 : Cell) (rest : list Cell) (fuel : nat) :
  (forall c, In c (cell0 :: rest) -> row c < 0 /\ col c < 0) ->
  (exists c, In c (cell0 :: rest) /\ ~ same_place c cell0) ->
  QuadTree_index fuel (newQuadTree (cell0 :: rest)) None = OutOfFuel.
Proof.
  intros Hneg (c1 & H1 & Hs).
  destruct (bbox_tight cell0 rest)
    as (Hin & _ & (cr & Hcr & Er) & _ & (ck & Hck & Ek)).
  unfold QuadTree_index.
  cbn [leaves newQuadTree minimumCellSize addCells].
  set (b := buildAxisAlignedBoundingBox cell0 (cell0 :: rest)) in *.
  pose proof (Hin cell0 (or_introl eq_refl)) as B0.
  pose proof (Hin c1 H1) as B1.
  pose proof (Hneg cr Hcr) as Nr. pose proof (Hneg ck Hck) as Nk.
  rewrite (addCell_never_returns cell0 0 fuel); try lia; [reflexivity|].
  unfold same_place in Hs.
  assert (2 <= rowMax b - rowMin b \/ 2 <= colMax b - colMin b) by lia.
  nia.
Qed.

Lemma X5_index_never_returns_in_negative_quadrant_witness :
  QuadTree_index 1000 (newQuadTree negative_seed) None = OutOfFuel.
Proof.
  apply (X5_index_never_returns_in_negative_quadrant
           (newCell (-3) (-3) (Some 1) None)
           [newCell (-2) (-1) (Some 1) None] 1000).
  - intros c H; each_cell H; simpl; lia.
  - exists (newCell (-2) (-1) (Some 1) None). split; [simpl; auto|].
    unfold same_place; simpl; lia.
Defined.

(* ================================================================= *)
(** ** Queries on any tree *)

Lemma search_from_any (mcs : Z) (q : Cell) (m : QTNode) :
  forall n,
  search_from mcs q n = Some m ->
  In m (nodes n) /\ area m = mcs /\ containsRect m q = true /\
  exists i, index m = Some i.
Proof.
  induction n as [r a i | r a i ul IHul ur IHur ll IHll lr IHlr];
    cbn [search_from area].
  - destruct (a =? mcs) eqn:Ea; [|discriminate]. apply Z.eqb_eq in Ea.
    destruct (containsRect _ q) eqn:Ec; simpl; [|discriminate].
    destruct i as [i|]; simpl; [|discriminate]. intros [= <-].
    simpl. eauto 6.
  - destruct (a =? mcs) eqn:Ea.
    + apply Z.eqb_eq in Ea. cbn [index].
      destruct (containsRect (Subdivided r a i ul ur ll lr) q) eqn:Ec;
        [|discriminate].
      destruct i as [i|]; cbn [andb]; [|discriminate]. intros [= <-].
      split; [now left|]. cbn [area index]. eauto 6.
    + cbn [nodes].
      destruct (_ <=? xx (rect ul)); destruct (_ <=? yy (rect ul)); intros H.
      * destruct (IHul H) as (Hin & R). split; [|exact R].
        right. apply in_or_app. auto.
      * destruct (IHll H) as (Hin & R). split; [|exact R].
        right. apply in_or_app. right. apply in_or_app. right. apply in_or_app. auto.
      * destruct (IHur H) as (Hin & R). split; [|exact R].
        right. apply in_or_app. right. apply in_or_app. auto.
      * destruct (IHlr H) as (Hin & R). split; [|exact R].
        right. apply in_or_app. right. apply in_or_app. right. apply in_or_app. auto.
Qed.

(** X9.  Whatever the tree, a node [search] returns is a node of the tree
    whose stored area is the minimum cell size, whose rectangle contains
    the cell searched for, and whose index is not null. *)
Theorem X9_search_returns_only_indexed_leaves (t : QuadTree) (q : Cell) (m : QTNode) :
  search t q = Ret (Some m) ->
  exists rt, root t = Some rt /\ In m (nodes rt) /\
             area m = minimumCellSize t /\ containsRect m q = true /\
             exists i, index m = Some i.
Proof.
  unfold search. destruct (root t) as [rt|]; [|discriminate].
  intros [= H]. exists rt. split; [reflexivity|].
  exact (search_from_any _ q m rt H).
Qed.

Lemma X9_search_returns_only_indexed_leaves_witness :
  exists rt, root corner_tree = Some rt /\
             In (Undivided (mkRect 1 1 2 2) 1 (Some 2)) (nodes rt) /\
             area (Undivided (mkRect 1 1 2 2) 1 (Some 2))
               = minimumCellSize corner_tree /\
             containsRect (Undivided (mkRect 1 1 2 2) 1 (Some 2))
               (newCell 1 1 None None) = true /\
             exists i, index (Undivided (mkRect 1 1 2 2) 1 (Some 2)) = Some i.
Proof.
  apply (X9_search_returns_only_indexed_leaves corner_tree (newCell 1 1 None None)).
  vm_compute. reflexivity.
Defined.

(** X10.  Whatever the tree and its leaves, every cell [findAliveInArea]
    returns is an element of the leaves sequence and lies in the query
    box. *)
Theorem X10_range_query_stays_in_box (t : QuadTree) (qx qy qxx qyy : Z)
        (found : list Cell) :
  findAliveInArea t qx qy qxx qyy = Ret found ->
  forall c, In c found ->
    In c (leaves t) /\ qx <= row c <= qxx /\ qy <= col c <= qyy.
Proof.
  unfold findAliveInArea. destruct (root t) as [rt|]; [|discriminate].
  intros [= <-] c Hc. apply findAliveInArea_from_sound in Hc.
  rewrite isInsideRect_iff in Hc. exact Hc.
Qed.

Lemma X10_range_query_stays_in_box_witness :
  In (newCell 1 1 (Some 1) None) (leaves corner_tree) /\
  1 <= row (newCell 1 1 (Some 1) None) <= 1 /\
  0 <= col (newCell 1 1 (Some 1) None) <= 1.
Proof.
  apply (X10_range_query_stays_in_box corner_tree 1 0 1 1
           [newCell 1 0 (Some 1) None; newCell 1 1 (Some 1) None]).
  - vm_compute. reflexivity.
  - simpl. right. left. reflexivity.
Defined.

(** X11.  A tree that is cleared and indexed again, whatever it held, has
    no alive cell, and every query on it comes back empty: [search] returns
    null, [findCellIfAlive] the dead sentinel, [findAliveInArea] the empty
    list and [findAliveNeighbors] 0. *)
Theorem X11_cleared_tree_answers_nothing (t : QuadTree) (fuel : nat) :
  exists t',
    QuadTree_index fuel (clear t) None = Ret t' /\
    aliveCellsCount t' = 0 /\
    (forall q, search t' q = Ret None) /\
    (forall r k, findCellIfAlive t' r k = Ret DeadCell) /\
    (forall qx qy qxx qyy, findAliveInArea t' qx qy qxx qyy = Ret []) /\
    (forall r k, findAliveNeighbors t' r k = Ret 0).
Proof.
  exists (mkQuadTree [] (Some (newQTNode 0 0 0 0)) (minimumCellSize t)
                     (Some emptyAABB)).
  split; [reflexivity|]. split; [reflexivity|].
  assert (Hs : forall q,
            search_from (minimumCellSize t) q (newQTNode 0 0 0 0) = None).
  { intros q. simpl. destruct (minimumCellSize t); try reflexivity.
    now rewrite andb_false_r. }
  assert (Hf : forall qx qy qxx qyy,
            findAliveInArea_from [] qx qy qxx qyy (newQTNode 0 0 0 0) = []).
  { intros. simpl. now destruct (negb _). }
  split; [|split; [|split]].
  - intros q. unfold search. cbn [root minimumCellSize]. now rewrite Hs.
  - intros r k. unfold findCellIfAlive, search. cbn [root minimumCellSize].
    now rewrite Hs.
  - intros. unfold findAliveInArea. cbn [root leaves]. now rewrite Hf.
  - intros. unfold findAliveNeighbors, findAliveInArea. cbn [root leaves].
    now rewrite Hf.
Qed.

(** X12.  [index] rebuilds the tree from the leaves: indexing again the
    tree [index] returned, with no new cells, returns that same tree, with
    the same fuel or more, and no run of it returns any other tree. *)
Theorem X12_index_again_changes_nothing (fuel : nat) (t t' : QuadTree)
        (liveCells : option (list Cell)) :
  QuadTree_index fuel t liveCells = Ret t' ->
  (forall fuel', (fuel <= fuel')%nat -> QuadTree_index fuel' t' None = Ret t') /\
  (forall fuel' t'', QuadTree_index fuel' t' None = Ret t'' -> t'' = t').
Proof.
  intros H.
  assert (H' : QuadTree_index fuel t' None = Ret t').
  { unfold QuadTree_index in *.
    apply bind_Ret in H. destruct H as (r & Hr & [= <-]). simpl.
    rewrite Hr. reflexivity. }
  split.
  - intros fuel' Hf. exact (index_more_fuel _ _ _ _ _ Hf H').
  - intros fuel' t'' H''. exact (index_one_result _ _ _ _ _ _ H'' H').
Qed.

Lemma X12_index_again_changes_nothing_witness :
  (forall fuel', (5 <= fuel')%nat ->
     QuadTree_index fuel' corner_tree None = Ret corner_tree) /\
  (forall fuel' t'',
     QuadTree_index fuel' corner_tree None = Ret t'' -> t'' = corner_tree).
Proof.
  apply (X12_index_again_changes_nothing 5 (newQuadTree corner_seed) corner_tree None).
  vm_compute. reflexivity.
Defined.

(** X13.  [QuadTree.clone] of a tree whose leaves lie in the non-negative
    quadrant returns, whether or not the tree was ever indexed; the clone
    has the same leaves and a root, and it is built from the leaves alone:
    any tree with these leaves, the clone itself among them, has the same
    clone. *)
Theorem X13_clone_is_built_from_leaves (t : QuadTree) :
  (forall c, In c (leaves t) -> nonneg c) ->
  exists t',
    leaves t' = leaves t /\ root t' <> None /\ minimumCellSize t' = 1 /\
    forall s fuel, leaves s = leaves t ->
      (enough_fuel (leaves t) <= fuel)%nat ->
      QuadTree_clone fuel (Some s) = Ret t'.
Proof.
  intros Hnn.
  destruct (index_nonneg_returns (leaves t) (enough_fuel (leaves t)) Hnn (le_n _))
    as [t' Ht].
  destruct (index_indexed_over _ _ _ Hnn Ht) as (El & Em & rt & Er & _).
  exists t'. split; [exact El|]. split; [rewrite Er; discriminate|].
  split; [exact Em|].
  intros s fuel Hs Hf. unfold QuadTree_clone.
  rewrite map_Cell_clone, Hs.
  exact (index_more_fuel _ _ _ _ _ Hf Ht).
Qed.

Lemma X13_clone_is_built_from_leaves_witness :
  exists t',
    leaves t' = leaves (newQuadTree corner_seed) /\ root t' <> None /\
    minimumCellSize t' = 1 /\
    forall s fuel, leaves s = leaves (newQuadTree corner_seed) ->
      (enough_fuel (leaves (newQuadTree corner_seed)) <= fuel)%nat ->
      QuadTree_clone fuel (Some s) = Ret t'.
Proof.
  apply (X13_clone_is_built_from_leaves (newQuadTree corner_seed)).
  simpl. cells_nonneg.
Defined.

(* ================================================================= *)
(** ** Lists built position by position *)

Lemma distinct_places_app (l1 l2 : list Cell) :
  distinct_places l1 -> distinct_places l2 ->
  (forall a b, In a l1 -> In b l2 -> ~ same_place a b) ->
  distinct_places (l1 ++ l2).
Proof.
  induction l1 as [|c l1 IH]; simpl; [auto|].
  intros [Hc Hd] H2 Hx. split.
  - intros d Hin. apply in_app_or in Hin. destruct Hin; auto.
  - apply IH; auto.
Qed.

Lemma range_NoDup (n : Z) : NoDup (range n).
Proof.
  unfold range. apply Finite.Injective_map_NoDup; [|apply seq_NoDup].
  intros a b. apply Nat2Z.inj.
Qed.

(** Pieces that carry different tags make up a list of distinct places. *)
Lemma distinct_concat (P : Z -> list Cell -> Prop) (tag : Cell -> Z) :
  (forall v l, P v l -> distinct_places l /\ forall c, In c l -> tag c = v) ->
  (forall a b, same_place a b -> tag a = tag b) ->
  forall values pieces,
  NoDup values -> Forall2 P values pieces ->
  distinct_places (List.concat pieces).
Proof.
  intros HP Htag values pieces Hnd HF.
  induction HF as [|v l values pieces Hv HF IH]; simpl; [exact I|].
  inversion Hnd as [|? ? Hnotin Hnd']; subst.
  destruct (HP v l Hv) as [Hd Ht].
  apply distinct_places_app; auto.
  intros a b Ha Hb Hs. apply in_concat in Hb. destruct Hb as (l' & Hl' & Hb).
  destruct (Forall2_In_r _ _ _ l' HF Hl') as (v' & Hv' & HP').
  destruct (HP v' l' HP') as [_ Ht'].
  apply Hnotin. rewrite <- (Ht a Ha), (Htag a b Hs), (Ht' b Hb). exact Hv'.
Qed.

Lemma concat_length_const {A B : Type} (P : A -> list B -> Prop) (n : nat) :
  (forall v l, P v l -> List.length l = n) ->
  forall values pieces, Forall2 P values pieces ->
  List.length (List.concat pieces) = (List.length values * n)%nat.
Proof.
  intros HP values pieces HF.
  induction HF as [|v l values pieces Hv HF IH]; simpl; [reflexivity|].
  rewrite length_app, IH, (HP v l Hv). reflexivity.
Qed.

Lemma Forall2_map_r {A B : Type} (f : A -> B) (l : list A) :
  Forall2 (fun a b => b = f a) l (map f l).
Proof. induction l; simpl; constructor; auto. Qed.

(** A loop that only appends, as a concatenation. *)
Lemma fold_left_appends {A B : Type} (body : list B -> A -> list B)
      (g : A -> list B) :
  (forall acc v, body acc v = acc ++ g v) ->
  forall values acc, fold_left body values acc = acc ++ flat_map g values.
Proof.
  intros Hb. induction values as [|v values IH]; intros acc; simpl.
  - now rewrite app_nil_r.
  - rewrite IH, Hb, app_assoc. reflexivity.
Qed.

Lemma born_piece (evaluate : Z -> CellState -> CellState) (tree : QuadTree)
      (r c : Z) (l : list Cell) :
  born evaluate tree r c l ->
  distinct_places l /\
  forall d, In d l -> row d = r /\ col d = c /\ state d = ALIVE.
Proof.
  intros (n & found & _ & _ & ->).
  destruct (CellState_eqb _ ALIVE); simpl.
  - split; [split; [intros d []|exact I]|]. intros d [<-|[]]. auto.
  - split; [exact I|]. intros d [].
Qed.

Lemma born_in_row_piece (evaluate : Z -> CellState -> CellState) (tree : QuadTree)
      (h r : Z) (l : list Cell) :
  born_in_row evaluate tree (range h) r l ->
  distinct_places l /\ forall d, In d l -> row d = r.
Proof.
  intros (pieces & -> & HF). split.
  - apply (distinct_concat (born evaluate tree r) col) with (values := range h).
    + intros v l Hb. destruct (born_piece _ _ _ _ _ Hb) as [Hd Hc].
      split; [exact Hd|]. intros d Hin. apply (Hc d Hin).
    + intros a b [_ E]. exact E.
    + apply range_NoDup.
    + exact HF.
  - intros d Hd. apply in_concat in Hd. destruct Hd as (l & Hl & Hd).
    destruct (Forall2_In_r _ _ _ l HF Hl) as (c & _ & Hb).
    apply (proj2 (born_piece _ _ _ _ _ Hb) d Hd).
Qed.

(** The next generation holds at most one cell per place. *)
Lemma scanLandscape_distinct (evaluate : Z -> CellState -> CellState)
      (gm : GameManager) (cells : list Cell) :
  scanLandscape evaluate gm = Ret cells -> distinct_places cells.
Proof.
  intros H. apply scanLandscape_pieces in H. destruct H as (rows & -> & HF).
  apply (distinct_concat
           (born_in_row evaluate (currentTree gm) (range (landscape_height gm)))
           row) with (values := range (landscape_width gm)).
  - intros v l Hb. exact (born_in_row_piece _ _ _ _ _ Hb).
  - intros a b [E _]. exact E.
  - apply range_NoDup.
  - exact HF.
Qed.

Lemma evaluateCells_inv {Scene : Type} (push : Scene -> list Cell -> Scene)
      (fuel : nat) (gm gm' : GameManager) (scene scene' : Scene)
      (evaluate : Z -> CellState -> CellState) :
  evaluateCells push fuel gm scene evaluate = Ret (gm', scene') ->
  exists cells nt,
    scanLandscape evaluate gm = Ret cells /\
    QuadTree_index fuel (clear (nextTree gm)) (Some cells) = Ret nt /\
    gm' = mkGameManager (landscape_width gm) (landscape_height gm)
                        (currentTree gm) nt /\
    scene' = push scene cells /\ leaves nt = cells.
Proof.
  unfold evaluateCells. intros H.
  apply bind_Ret in H. destruct H as (cells & Hscan & H).
  apply bind_Ret in H. destruct H as (nt & Hidx & [= <- <-]).
  exists cells, nt. repeat split; auto. eapply index_leaves; eauto.
Qed.

(** X14.  Whatever the evaluator, the cells [evaluateCells] puts into the
    next tree lie in the landscape, have the state ALIVE and sit at
    pairwise distinct places; the scene receives exactly these cells, the
    current tree is left as it was, and a range query on the next tree
    returns, once each, the cells of the next generation in the query
    box. *)
Theorem X14_next_generation_is_well_placed {Scene : Type}
        (push : Scene -> list Cell -> Scene)
        (fuel : nat) (gm gm' : GameManager) (scene scene' : Scene)
        (evaluate : Z -> CellState -> CellState) :
  minimumCellSize (nextTree gm) = 1 ->
  evaluateCells push fuel gm scene evaluate = Ret (gm', scene') ->
  (forall d, In d (leaves (nextTree gm')) ->
     0 <= row d < landscape_width gm /\ 0 <= col d < landscape_height gm /\
     state d = ALIVE) /\
  distinct_places (leaves (nextTree gm')) /\
  scene' = push scene (leaves (nextTree gm')) /\
  currentTree gm' = currentTree gm /\
  forall qx qy qxx qyy,
    exists found,
      findAliveInArea (nextTree gm') qx qy qxx qyy = Ret found /\
      NoDup found /\
      forall c, In c found <->
                In c (leaves (nextTree gm')) /\
                qx <= row c <= qxx /\ qy <= col c <= qyy.
Proof.
  intros Hm H.
  destruct (evaluateCells_inv _ _ _ _ _ _ _ H)
    as (cells & nt & Hscan & Hidx & -> & -> & El).
  simpl nextTree. simpl currentTree. rewrite El.
  assert (Hcell : forall d, In d cells ->
            0 <= row d < landscape_width gm /\ 0 <= col d < landscape_height gm /\
            state d = ALIVE).
  { intros d Hd.
    destruct (scanLandscape_cell _ _ _ d Hscan Hd) as (Hr & Hc & l & Hb & Hin).
    repeat split; try lia. apply (proj2 (born_piece _ _ _ _ _ Hb) d Hin). }
  pose proof (scanLandscape_distinct _ _ _ Hscan) as Hd.
  split; [exact Hcell|]. split; [exact Hd|]. split; [reflexivity|].
  split; [reflexivity|].
  intros qx qy qxx qyy.
  assert (HI : indexed_over nt cells).
  { apply (index_wf fuel (clear (nextTree gm)) nt cells); auto.
    intros d Hin. destruct (Hcell d Hin) as (Hr & Hc & _). unfold nonneg. lia. }
  destruct (range_query_exact nt cells qx qy qxx qyy HI
              (distinct_places_determine _ Hd)) as (found & Hf & Hn & Hin).
  exists found. split; [exact Hf|]. split; [exact Hn|].
  intros c. rewrite Hin, isInsideRect_iff. tauto.
Qed.

Lemma X14_next_generation_is_well_placed_witness :
  (forall d, In d (leaves (nextTree corner_world_evaluated)) ->
     0 <= row d < landscape_width corner_world /\
     0 <= col d < landscape_height corner_world /\
     state d = ALIVE) /\
  distinct_places (leaves (nextTree corner_world_evaluated)) /\
  tt = no_scene tt (leaves (nextTree corner_world_evaluated)) /\
  currentTree corner_world_evaluated = currentTree corner_world /\
  forall qx qy qxx qyy,
    exists found,
      findAliveInArea (nextTree corner_world_evaluated) qx qy qxx qyy = Ret found /\
      NoDup found /\
      forall c, In c found <->
                In c (leaves (nextTree corner_world_evaluated)) /\
                qx <= row c <= qxx /\ qy <= col c <= qyy.
Proof.
  apply (X14_next_generation_is_well_placed no_scene 5 corner_world
           corner_world_evaluated tt tt AlwayAliveEvaluator).
  - reflexivity.
  - vm_compute. reflexivity.
Defined.

Lemma range_length (n : Z) : List.length (range n) = Z.to_nat n.
Proof. unfold range. now rewrite length_map, length_seq. Qed.

(** X15.  Under an evaluator that answers ALIVE everywhere (the
    AlwayAliveEvaluator of the tests), [evaluateCells] fills the next tree
    with one cell for every position of the landscape: width times height
    cells, a cell at every position. *)
Theorem X15_always_alive_fills_the_landscape {Scene : Type}
        (push : Scene -> list Cell -> Scene)
        (fuel : nat) (gm gm' : GameManager) (scene scene' : Scene)
        (evaluate : Z -> CellState -> CellState) :
  (forall n s, evaluate n s = ALIVE) ->
  evaluateCells push fuel gm scene evaluate = Ret (gm', scene') ->
  aliveCellsCount (nextTree gm') =
    Z.max 0 (landscape_width gm) * Z.max 0 (landscape_height gm) /\
  forall r k, 0 <= r < landscape_width gm -> 0 <= k < landscape_height gm ->
    exists d, In d (leaves (nextTree gm')) /\ row d = r /\ col d = k.
Proof.
  intros Hev H.
  destruct (evaluateCells_inv _ _ _ _ _ _ _ H)
    as (cells & nt & Hscan & Hidx & -> & -> & El).
  unfold aliveCellsCount. simpl nextTree. rewrite El. split.
  - destruct (scanLandscape_pieces _ _ _ Hscan) as (rows & -> & HF).
    assert (H1 : forall r c l, born evaluate (currentTree gm) r c l ->
                 List.length l = 1%nat).
    { intros r c l (n & found & _ & _ & ->). rewrite Hev. reflexivity. }
    assert (H2 : forall r l,
                 born_in_row evaluate (currentTree gm)
                             (range (landscape_height gm)) r l ->
                 List.length l = (Z.to_nat (landscape_height gm) * 1)%nat).
    { intros r l (pieces & -> & HF').
      rewrite (concat_length_const _ 1%nat (H1 r) _ _ HF').
      now rewrite range_length. }
    rewrite (concat_length_const _ _ H2 _ _ HF), range_length. lia.
  - intros r k Hr Hk.
    destruct (scanLandscape_position _ _ _ r k Hscan Hr Hk)
      as (l & (n & found & _ & _ & ->) & Hincl).
    rewrite Hev in Hincl. simpl in Hincl.
    eexists. split; [apply Hincl; now left|]. split; reflexivity.
Qed.

Lemma X15_always_alive_fills_the_landscape_witness :
  aliveCellsCount (nextTree corner_world_evaluated) =
    Z.max 0 (landscape_width corner_world) * Z.max 0 (landscape_height corner_world) /\
  forall r k, 0 <= r < landscape_width corner_world ->
              0 <= k < landscape_height corner_world ->
    exists d, In d (leaves (nextTree corner_world_evaluated)) /\
              row d = r /\ col d = k.
Proof.
  apply (X15_always_alive_fills_the_landscape no_scene 5 corner_world
           corner_world_evaluated tt tt AlwayAliveEvaluator).
  - reflexivity.
  - vm_compute. reflexivity.
Defined.

Lemma range_pos (n : Z) : 0 < n -> exists rest, range n = 0 :: rest.
Proof.
  intros H. unfold range.
  destruct (Z.to_nat n) as [|k] eqn:E; [lia|]. simpl. eauto.
Qed.

Lemma range_nonpos (n : Z) : n <= 0 -> range n = [].
Proof.
  intros H. unfold range. replace (Z.to_nat n) with 0%nat by lia. reflexivity.
Qed.

Lemma forLoop_keeps {A : Type} (body : Z -> A -> outcome A) :
  (forall v acc, body v acc = Ret acc) ->
  forall values acc, forLoop body values acc = Ret acc.
Proof.
  intros Hb. induction values as [|v values IH]; intros acc; simpl; [reflexivity|].
  rewrite Hb. simpl. apply IH.
Qed.

(** X16.  On a manager whose current tree has a null root (a new manager
    before [seedWorld]) [evaluateCells] throws the error of the range query
    as soon as the landscape has a position; on a landscape without
    positions it returns, with a next tree that has no alive cell. *)
Theorem X16_evaluateCells_needs_an_indexed_tree {Scene : Type}
        (push : Scene -> list Cell -> Scene)
        (fuel : nat) (gm : GameManager) (scene : Scene)
        (evaluate : Z -> CellState -> CellState) :
  root (currentTree gm) = None ->
  (0 < landscape_width gm -> 0 < landscape_height gm ->
   evaluateCells push fuel gm scene evaluate =
   Throw "Cannot perform a range query on an empty node.") /\
  (landscape_width gm <= 0 \/ landscape_height gm <= 0 ->
   exists gm',
     evaluateCells push fuel gm scene evaluate = Ret (gm', push scene []) /\
     aliveCellsCount (nextTree gm') = 0).
Proof.
  intros Hr. split.
  - intros Hw Hh. unfold evaluateCells, scanLandscape.
    destruct (range_pos _ Hw) as [rw ->]. destruct (range_pos _ Hh) as [rh ->].
    simpl. unfold evaluateCell, findAliveNeighbors, findAliveInArea.
    rewrite Hr. reflexivity.
  - intros Hempty. unfold evaluateCells.
    assert (Hscan : scanLandscape evaluate gm = Ret []).
    { unfold scanLandscape. destruct Hempty as [Hw|Hh].
      - rewrite (range_nonpos _ Hw). reflexivity.
      - rewrite (range_nonpos _ Hh). apply forLoop_keeps. reflexivity. }
    rewrite Hscan. simpl. eexists. split; reflexivity.
Qed.

Lemma X16_evaluateCells_needs_an_indexed_tree_witness :
  (0 < landscape_width (newGameManager 2 2) ->
   0 < landscape_height (newGameManager 2 2) ->
   evaluateCells no_scene 5 (newGameManager 2 2) tt AlwayAliveEvaluator =
   Throw "Cannot perform a range query on an empty node.") /\
  (landscape_width (newGameManager 2 2) <= 0 \/
   landscape_height (newGameManager 2 2) <= 0 ->
   exists gm',
     evaluateCells no_scene 5 (newGameManager 2 2) tt AlwayAliveEvaluator
       = Ret (gm', no_scene tt []) /\
     aliveCellsCount (nextTree gm') = 0).
Proof.
  apply (X16_evaluateCells_needs_an_indexed_tree no_scene 5 (newGameManager 2 2)
           tt AlwayAliveEvaluator).
  reflexivity.
Defined.

(** X17.  [evaluateCells] reads the current tree only and rebuilds the next
    tree from nothing: evaluating a second time without activating returns
    the same manager, and pushes the same cells to the scene again. *)
Theorem X17_evaluating_twice_gives_the_same_next_tree {Scene : Type}
        (push : Scene -> list Cell -> Scene)
        (fuel : nat) (gm gm1 : GameManager) (scene scene1 : Scene)
        (evaluate : Z -> CellState -> CellState) :
  evaluateCells push fuel gm scene evaluate = Ret (gm1, scene1) ->
  evaluateCells push fuel gm1 scene1 evaluate
    = Ret (gm1, push scene1 (leaves (nextTree gm1))).
Proof.
  intros H.
  destruct (evaluateCells_inv _ _ _ _ _ _ _ H)
    as (cells & nt & Hscan & Hidx & -> & -> & El).
  unfold evaluateCells.
  assert (Hscan' : scanLandscape evaluate
                     (mkGameManager (landscape_width gm) (landscape_height gm)
                                    (currentTree gm) nt) = Ret cells)
    by exact Hscan.
  rewrite Hscan'. simpl. rewrite El.
  assert (Hidx' : QuadTree_index fuel (clear nt) (Some cells) = Ret nt).
  { unfold QuadTree_index in *.
    apply bind_Ret in Hidx. destruct Hidx as (r & Hr & [= <-]).
    simpl in *. rewrite Hr. reflexivity. }
  rewrite Hidx'. reflexivity.
Qed.

Lemma X17_evaluating_twice_gives_the_same_next_tree_witness :
  evaluateCells no_scene 5 corner_world_evaluated tt AlwayAliveEvaluator
    = Ret (corner_world_evaluated,
           no_scene tt (leaves (nextTree corner_world_evaluated))).
Proof.
  apply (X17_evaluating_twice_gives_the_same_next_tree no_scene 5 corner_world
           corner_world_evaluated tt tt AlwayAliveEvaluator).
  vm_compute. reflexivity.
Defined.

(* ================================================================= *)
(** ** Seeding *)

Lemma seed_flat (birthChance : Z -> Z -> Z) (w h : Z) :
  QuadTreeSeeder_seed birthChance w h =
  flat_map
    (fun x0 =>
       flat_map
         (fun y0 => if birthChance x0 y0 =? 1
                    then [newCell x0 y0 (Some 1) None] else [])
         (range h))
    (range w).
Proof.
  unfold QuadTreeSeeder_seed.
  rewrite (fold_left_appends _
             (fun x0 =>
                flat_map
                  (fun y0 => if birthChance x0 y0 =? 1
                             then [newCell x0 y0 (Some 1) None] else [])
                  (range h))); [reflexivity|].
  intros acc x0.
  apply (fold_left_appends
           (fun aliveCells' y0 =>
              if birthChance x0 y0 =? 1
              then aliveCells' ++ [newCell x0 y0 (Some 1) None]
              else aliveCells')).
  intros acc' y0. destruct (birthChance x0 y0 =? 1); [reflexivity|].
  now rewrite app_nil_r.
Qed.

Lemma seed_In (birthChance : Z -> Z -> Z) (w h : Z) (c : Cell) :
  In c (QuadTreeSeeder_seed birthChance w h) <->
  0 <= row c < w /\ 0 <= col c < h /\ birthChance (row c) (col c) = 1 /\
  age c = 1 /\ state c = ALIVE.
Proof.
  rewrite seed_flat, in_flat_map. split.
  - intros (x0 & Hx & H). apply in_flat_map in H. destruct H as (y0 & Hy & H).
    apply range_iff in Hx. apply range_iff in Hy.
    destruct (birthChance x0 y0 =? 1) eqn:E; [|destruct H].
    destruct H as [<-|[]]. apply Z.eqb_eq in E. simpl. auto.
  - intros (Hr & Hc & Hb & Ha & Hs).
    exists (row c). split; [apply range_iff; exact Hr|].
    apply in_flat_map. exists (col c). split; [apply range_iff; exact Hc|].
    rewrite Hb. simpl. left. destruct c as [r k a s]. simpl in *.
    subst. reflexivity.
Qed.

Lemma seed_distinct (birthChance : Z -> Z -> Z) (w h : Z) :
  distinct_places (QuadTreeSeeder_seed birthChance w h).
Proof.
  rewrite seed_flat, flat_map_concat_map.
  apply (distinct_concat
           (fun x0 l =>
              l = flat_map
                    (fun y0 => if birthChance x0 y0 =? 1
                               then [newCell x0 y0 (Some 1) None] else [])
                    (range h))
           row) with (values := range w).
  - intros x0 l ->. split.
    + rewrite flat_map_concat_map.
      apply (distinct_concat
               (fun y0 l => l = if birthChance x0 y0 =? 1
                                then [newCell x0 y0 (Some 1) None] else [])
               col) with (values := range h).
      * intros y0 l ->. destruct (birthChance x0 y0 =? 1); simpl.
        -- split; [split; [intros d []|exact I]|]. intros d [<-|[]]. reflexivity.
        -- split; [exact I|]. intros d [].
      * intros a b [_ E]. exact E.
      * apply range_NoDup.
      * apply Forall2_map_r.
    + intros c Hc. apply in_flat_map in Hc. destruct Hc as (y0 & _ & Hc).
      destruct (birthChance x0 y0 =? 1); [|destruct Hc].
      destruct Hc as [<-|[]]. reflexivity.
  - intros a b [E _]. exact E.
  - apply range_NoDup.
  - apply Forall2_map_r.
Qed.

(** X18.  Whatever the random draws, [QuadTreeSeeder.seed] returns cells of
    age 1 at pairwise distinct places of the landscape, and [seedWorld] on
    a new manager returns: afterwards the point lookup on the current tree
    finds a cell at a position exactly when the draw of that position was
    1, and the next tree is indexed and has no alive cell. *)
Theorem X18_seeded_world (birthChance : Z -> Z -> Z) (w h : Z) :
  let cells := QuadTreeSeeder_seed birthChance w h in
  exists gm',
    (forall fuel, (enough_fuel cells <= fuel)%nat ->
       seedWorld fuel (newGameManager w h) (QuadTreeSeeder_seed birthChance)
       = Ret gm') /\
    leaves (currentTree gm') = cells /\
    distinct_places cells /\
    (forall c, In c cells ->
       0 <= row c < w /\ 0 <= col c < h /\ age c = 1 /\ state c = ALIVE) /\
    (forall r k, 0 <= r < w -> 0 <= k < h ->
       findCellIfAlive (currentTree gm') r k =
       Ret (if birthChance r k =? 1
            then asFound (newCell r k (Some 1) None) else DeadCell)) /\
    aliveCellsCount (nextTree gm') = 0 /\ root (nextTree gm') <> None.
Proof.
  intros cells.
  assert (Hnn : forall c, In c cells -> nonneg c).
  { intros c Hc. apply seed_In in Hc. unfold nonneg. lia. }
  pose proof (seed_distinct birthChance w h) as Hd. fold cells in Hd.
  destruct (index_returns (enough_fuel cells) QuadTree_empty cells Hnn eq_refl (le_n _))
    as [cur Hcur].
  pose proof (index_wf _ QuadTree_empty cur cells Hnn eq_refl Hcur) as HI.
  exists (mkGameManager w h cur
            (mkQuadTree [] (Some (newQTNode 0 0 0 0)) 1 (Some emptyAABB))).
  split; [|split; [|split; [|split; [|split]]]].
  - intros fuel Hf. unfold seedWorld. simpl landscape_width.
    simpl landscape_height. simpl currentTree. fold cells.
    rewrite (index_more_fuel _ _ _ _ _ Hf Hcur). reflexivity.
  - apply HI.
  - exact Hd.
  - intros c Hc. apply seed_In in Hc. tauto.
  - intros r k Hr Hk. simpl currentTree.
    destruct (birthChance r k =? 1) eqn:E.
    + apply Z.eqb_eq in E.
      assert (Hin : In (newCell r k (Some 1) None) cells)
        by (apply seed_In; simpl; auto).
      destruct (lookup_hit cur cells _ HI Hin) as (c' & Hc' & Hs & Hf).
      simpl in Hf. rewrite Hf.
      now rewrite (distinct_same cells c' _ Hd Hc' Hin Hs).
    + apply Z.eqb_neq in E. apply (lookup_miss cur cells r k HI).
      intros c Hc [<- <-]. apply seed_In in Hc. tauto.
  - split; [reflexivity | discriminate].
Qed.

(* ================================================================= *)
(** ** Drawing *)

Lemma splice1_middle {A : Type} (l1 l2 : list A) (c : A) (i : Z) :
  0 <= i -> Z.to_nat i = List.length l1 ->
  splice1 (l1 ++ c :: l2) (Some i) = l1 ++ l2.
Proof.
  intros H0 Hi. unfold splice1.
  assert ((i <? 0) = false) as -> by (apply Z.ltb_ge; lia).
  replace (Z.to_nat (Z.min i (Z.of_nat (List.length (l1 ++ c :: l2)))))
    with (List.length l1) by (rewrite length_app; simpl; lia).
  rewrite firstn_app, Nat.sub_diag, firstn_all, firstn_O, app_nil_r.
  rewrite skipn_app, skipn_all2 by lia.
  replace (S (List.length l1) - List.length l1)%nat with 1%nat by lia.
  reflexivity.
Qed.

Lemma distinct_places_remove (l1 l2 : list Cell) (c : Cell) :
  distinct_places (l1 ++ c :: l2) ->
  distinct_places (l1 ++ l2) /\
  forall d, In d (l1 ++ l2) -> ~ same_place d c.
Proof.
  induction l1 as [|a l1 IH]; simpl.
  - intros [Hc Hd]. split; [exact Hd|].
    intros d Hin [E1 E2]. apply (Hc d Hin). split; congruence.
  - intros [Ha Hd]. destruct (IH Hd) as [Hd' Hc]. split; [split|].
    + intros d Hin. apply Ha. apply in_app_or in Hin. apply in_or_app.
      destruct Hin; [left|right; right]; assumption.
    + exact Hd'.
    + intros d [<-|Hin]; [|auto].
      apply Ha. apply in_or_app. right. now left.
Qed.

(** The second half of [toggleCell]: the next tree is indexed over the new
    cells, cloned into the current tree and emptied. *)
Lemma dsm_rebuild (d : DrawingStateManager.t) (cells' : list Cell) :
  (forall c, In c cells' -> nonneg c) ->
  minimumCellSize (DrawingStateManager.nextTree d) = 1 ->
  exists cur',
    indexed_over cur' cells' /\
    forall fuel, (enough_fuel cells' <= fuel)%nat ->
      (nxt <- QuadTree_index fuel (clear (DrawingStateManager.nextTree d))
                             (Some cells') ;;
       DrawingStateManager.activateNext fuel
         (DrawingStateManager.mk cells' (DrawingStateManager.currentTree d) nxt))
      = Ret (DrawingStateManager.mk cells' cur'
               (mkQuadTree [] (Some (newQTNode 0 0 0 0)) 1 (Some emptyAABB))).
Proof.
  intros Hnn Hm.
  destruct (index_returns (enough_fuel cells') (newQuadTree cells') cells'
              Hnn eq_refl (le_n _)) as [cur' Hcur].
  exists cur'. split.
  - exact (index_wf _ (newQuadTree cells') cur' cells' Hnn eq_refl Hcur).
  - intros fuel Hf.
    destruct (index_returns fuel (clear (DrawingStateManager.nextTree d)) cells'
                Hnn Hm Hf) as [nxt Hnxt].
    rewrite Hnxt. cbn [bind].
    destruct (index_wf _ _ nxt cells' Hnn Hm Hnxt) as (El & Em & _).
    unfold DrawingStateManager.activateNext, QuadTree_clone.
    cbn [DrawingStateManager.nextTree DrawingStateManager.cells].
    rewrite map_Cell_clone, El, index_default. cbn [leaves newQuadTree].
    rewrite (index_more_fuel _ _ _ _ _ Hf Hcur). cbn [bind].
    unfold QuadTree_index. cbn [leaves clear addCells bind minimumCellSize].
    rewrite Em. reflexivity.
Qed.

(** [toggleCell] at a place of the non-negative quadrant where the drawing
    has no cell. *)
Lemma dsm_toggle_adds (d : DrawingStateManager.t) (x0 y0 : Z) :
  consistent d -> 0 <= x0 -> 0 <= y0 ->
  (forall c, In c (DrawingStateManager.cells d) -> ~ (row c = x0 /\ col c = y0)) ->
  exists d',
    (forall fuel,
       (enough_fuel (DrawingStateManager.cells d ++ [newCell x0 y0 (Some 1%Z) None])
        <= fuel)%nat ->
       DrawingStateManager.toggleCell fuel d x0 y0 = Ret d') /\
    DrawingStateManager.cells d' =
      DrawingStateManager.cells d ++ [newCell x0 y0 (Some 1) None] /\
    consistent d' /\
    aliveCellsCount (DrawingStateManager.nextTree d') = 0.
Proof.
  intros (Hnn & Hd & HI & Hm) Hx Hy Hno.
  set (cells' := DrawingStateManager.cells d ++ [newCell x0 y0 (Some 1) None]).
  assert (Hnn' : forall c, In c cells' -> nonneg c).
  { intros c Hc. apply in_app_or in Hc. destruct Hc as [Hc|[<-|[]]]; auto.
    unfold nonneg; simpl; lia. }
  destruct (dsm_rebuild d cells' Hnn' Hm) as (cur' & HI' & Hrun).
  eexists. split; [|split; [|split]].
  - intros fuel Hf. unfold DrawingStateManager.toggleCell.
    rewrite (search_miss _ _ (newCell x0 y0 None None) HI).
    + cbn [bind]. exact (Hrun fuel Hf).
    + intros c Hc [Hr Hk]. apply (Hno c Hc). simpl in *. auto.
  - reflexivity.
  - split; [exact Hnn'|]. split; [|split; [exact HI'|reflexivity]].
    apply distinct_places_app; auto.
    + simpl. split; [intros ? []|exact I].
    + intros a b Ha [<-|[]] [Hr Hk]. apply (Hno a Ha). simpl in *. auto.
  - reflexivity.
Qed.

(** [toggleCell] at the place of a cell of the drawing. *)
Lemma dsm_toggle_removes (d : DrawingStateManager.t) (l1 l2 : list Cell) (c : Cell) :
  consistent d -> DrawingStateManager.cells d = l1 ++ c :: l2 ->
  exists d',
    (forall fuel, (enough_fuel (l1 ++ l2) <= fuel)%nat ->
       DrawingStateManager.toggleCell fuel d (row c) (col c) = Ret d') /\
    DrawingStateManager.cells d' = l1 ++ l2 /\
    consistent d' /\
    aliveCellsCount (DrawingStateManager.nextTree d') = 0.
Proof.
  intros (Hnn & Hd & HI & Hm) Ec.
  assert (Hin : In c (DrawingStateManager.cells d))
    by (rewrite Ec; apply in_or_app; right; now left).
  destruct (search_hit _ _ c HI Hin)
    as (m & i & c' & Hs & _ & _ & _ & Hi & H0 & Hn & Hp & _).
  assert (Hc' : c' = c).
  { apply (distinct_same (DrawingStateManager.cells d)); auto.
    eapply nth_error_In; eauto. }
  subst c'.
  assert (Hpos : Z.to_nat i = List.length l1).
  { pose proof (distinct_places_NoDup _ Hd) as Hnd.
    rewrite Ec in Hnd, Hn.
    apply (proj1 (NoDup_nth_error (l1 ++ c :: l2)) Hnd).
    - apply nth_error_Some. congruence.
    - rewrite Hn, nth_error_app2, Nat.sub_diag by lia. reflexivity. }
  rewrite Ec in Hd. destruct (distinct_places_remove l1 l2 c Hd) as [Hd' Hc].
  assert (Hnn' : forall a, In a (l1 ++ l2) -> nonneg a).
  { intros a Ha. apply Hnn. rewrite Ec. apply in_app_or in Ha.
    apply in_or_app. destruct Ha; [left|right; right]; assumption. }
  destruct (dsm_rebuild d (l1 ++ l2) Hnn' Hm) as (cur' & HI' & Hrun).
  eexists. split; [|split; [|split]].
  - intros fuel Hf. unfold DrawingStateManager.toggleCell.
    assert (Hs' : search (DrawingStateManager.currentTree d)
                         (newCell (row c) (col c) None None) = Ret (Some m)).
    { rewrite <- Hs. unfold search.
      destruct (root (DrawingStateManager.currentTree d)); [|reflexivity].
      f_equal. apply search_same_place. split; reflexivity. }
    rewrite Hs'. cbn [bind]. rewrite Hi, Ec, (splice1_middle l1 l2 c i H0 Hpos).
    exact (Hrun fuel Hf).
  - reflexivity.
  - split; [exact Hnn'|]. split; [exact Hd'|]. split; [exact HI'|reflexivity].
  - reflexivity.
Qed.

(** X19.  On a consistent drawing (cells of the non-negative quadrant at
    distinct places, indexed by the current tree), [toggleCell(x, y)] at a
    non-negative place without a cell returns; it appends the cell (x, y)
    of age 1 to the cells, leaves the drawing consistent, so that the
    point lookup now finds the new cell, and leaves the next tree empty. *)
Theorem X19_toggle_adds_a_missing_cell (d : DrawingStateManager.t) (x0 y0 : Z) :
  consistent d -> 0 <= x0 -> 0 <= y0 ->
  (forall c, In c (DrawingStateManager.cells d) -> ~ (row c = x0 /\ col c = y0)) ->
  exists d',
    (forall fuel,
       (enough_fuel (DrawingStateManager.cells d ++ [newCell x0 y0 (Some 1%Z) None])
        <= fuel)%nat ->
       DrawingStateManager.toggleCell fuel d x0 y0 = Ret d') /\
    DrawingStateManager.cells d' =
      DrawingStateManager.cells d ++ [newCell x0 y0 (Some 1) None] /\
    consistent d' /\
    findCellIfAlive (DrawingStateManager.currentTree d') x0 y0
      = Ret (asFound (newCell x0 y0 (Some 1) None)) /\
    aliveCellsCount (DrawingStateManager.nextTree d') = 0.
Proof.
  intros Hc Hx Hy Hno.
  destruct (dsm_toggle_adds d x0 y0 Hc Hx Hy Hno) as (d' & Hrun & Ecells & Hc' & Hn).
  exists d'. split; [exact Hrun|]. split; [exact Ecells|]. split; [exact Hc'|].
  split; [|exact Hn].
  destruct Hc' as (_ & Hd' & HI' & _).
  assert (Hin : In (newCell x0 y0 (Some 1) None) (DrawingStateManager.cells d'))
    by (rewrite Ecells; apply in_or_app; right; now left).
  destruct (lookup_hit _ _ _ HI' Hin) as (c' & Hc'in & Hs & Hf).
  simpl in Hf. rewrite Hf.
  now rewrite (distinct_same _ c' _ Hd' Hc'in Hin Hs).
Qed.

(** X20.  On a consistent drawing, [toggleCell] at the place of a cell of
    the drawing returns; it removes exactly that cell from the cells,
    keeping the order of the others, leaves the drawing consistent, so
    that the point lookup at the place now returns the dead sentinel, and
    leaves the next tree empty. *)
Theorem X20_toggle_removes_a_present_cell
        (d : DrawingStateManager.t) (l1 l2 : list Cell) (c : Cell) :
  consistent d -> DrawingStateManager.cells d = l1 ++ c :: l2 ->
  exists d',
    (forall fuel, (enough_fuel (l1 ++ l2) <= fuel)%nat ->
       DrawingStateManager.toggleCell fuel d (row c) (col c) = Ret d') /\
    DrawingStateManager.cells d' = l1 ++ l2 /\
    consistent d' /\
    findCellIfAlive (DrawingStateManager.currentTree d') (row c) (col c)
      = Ret DeadCell /\
    aliveCellsCount (DrawingStateManager.nextTree d') = 0.
Proof.
  intros Hc Ec. pose proof Hc as (_ & Hd & _).
  destruct (dsm_toggle_removes d l1 l2 c Hc Ec) as (d' & Hrun & Ecells & Hc' & Hn).
  exists d'. split; [exact Hrun|]. split; [exact Ecells|]. split; [exact Hc'|].
  split; [|exact Hn].
  destruct Hc' as (_ & _ & HI' & _).
  apply (lookup_miss _ _ _ _ HI').
  rewrite Ecells. rewrite Ec in Hd.
  destruct (distinct_places_remove l1 l2 c Hd) as [_ Hno].
  intros a Ha E. exact (Hno a Ha E).
Qed.

(** X21.  On a consistent drawing, toggling twice a non-negative place that
    has no cell gives the cells back as they were: the first call adds the
    cell, the second removes it, and the drawing is consistent again. *)
Theorem X21_toggle_twice_restores_the_cells (d : DrawingStateManager.t) (x0 y0 : Z) :
  consistent d -> 0 <= x0 -> 0 <= y0 ->
  (forall c, In c (DrawingStateManager.cells d) -> ~ (row c = x0 /\ col c = y0)) ->
  exists d1 d2 fuel0,
    forall fuel, (fuel0 <= fuel)%nat ->
      DrawingStateManager.toggleCell fuel d x0 y0 = Ret d1 /\
      DrawingStateManager.toggleCell fuel d1 x0 y0 = Ret d2 /\
      DrawingStateManager.cells d2 = DrawingStateManager.cells d /\
      leaves (DrawingStateManager.currentTree d2) = DrawingStateManager.cells d /\
      consistent d2.
Proof.
  intros Hc Hx Hy Hno.
  destruct (dsm_toggle_adds d x0 y0 Hc Hx Hy Hno) as (d1 & Hrun1 & E1 & Hc1 & _).
  destruct (dsm_toggle_removes d1 (DrawingStateManager.cells d) []
              (newCell x0 y0 (Some 1) None) Hc1 E1)
    as (d2 & Hrun2 & E2 & Hc2 & _).
  rewrite app_nil_r in E2, Hrun2.
  exists d1, d2,
    (Nat.max (enough_fuel (DrawingStateManager.cells d ++
                           [newCell x0 y0 (Some 1%Z) None]))
             (enough_fuel (DrawingStateManager.cells d))).
  intros fuel Hf. split; [apply Hrun1; lia|]. split; [apply Hrun2; lia|].
  split; [exact E2|]. split; [|exact Hc2].
  destruct Hc2 as (_ & _ & (El & _) & _). rewrite El. exact E2.
Qed.

(** X22.  A new manager is consistent and has no cell; [clear()] on a
    consistent drawing returns a consistent drawing without cells, whose
    current tree is the one of a new manager. *)
Theorem X22_clear_gives_back_a_new_drawing (d : DrawingStateManager.t) (fuel : nat) :
  consistent d ->
  exists d0 d',
    DrawingStateManager.new fuel = Ret d0 /\
    consistent d0 /\ DrawingStateManager.cells d0 = [] /\
    DrawingStateManager.clear fuel d = Ret d' /\
    consistent d' /\ DrawingStateManager.cells d' = [] /\
    DrawingStateManager.currentTree d' = DrawingStateManager.currentTree d0 /\
    aliveCellsCount (DrawingStateManager.nextTree d') = 0.
Proof.
  intros (_ & _ & (_ & Hm & _) & Hm').
  assert (HI : indexed_over
                 (mkQuadTree [] (Some (newQTNode 0 0 0 0)) 1 (Some emptyAABB)) []).
  { split; [reflexivity|]. split; [reflexivity|].
    eexists. split; [reflexivity|]. split; [|intros c []].
    simpl. unfold ordered; simpl. repeat split; lia. }
  do 2 eexists. split; [reflexivity|]. split.
  { split; [intros c []|]. split; [exact I|]. split; [exact HI|reflexivity]. }
  split; [reflexivity|]. split.
  { unfold DrawingStateManager.clear, QuadTree_index.
    cbn [leaves clear addCells bind minimumCellSize]. rewrite Hm, Hm'.
    reflexivity. }
  split.
  { split; [intros c []|]. split; [exact I|]. split; [exact HI|reflexivity]. }
  repeat split.
Qed.

Ltac concrete_wf :=
  simpl; unfold ordered; simpl; repeat split;
  try lia; try reflexivity; try (intros; lia).

Ltac drawing_consistent :=
  unfold consistent; simpl;
  split; [cells_nonneg|];
  split; [cells_distinct|];
  split; [|reflexivity];
  split; [reflexivity|]; split; [reflexivity|];
  eexists; split; [reflexivity|];
  split; [concrete_wf|];
  let c := fresh "c" in let H := fresh "H" in
  intros c H; each_cell H; reflexivity.

Lemma X19_toggle_adds_a_missing_cell_witness :
  exists d',
    (forall fuel,
       (enough_fuel (DrawingStateManager.cells drawing_one ++
                     [newCell 0 2 (Some 1%Z) None]) <= fuel)%nat ->
       DrawingStateManager.toggleCell fuel drawing_one 0 2 = Ret d') /\
    DrawingStateManager.cells d' =
      DrawingStateManager.cells drawing_one ++ [newCell 0 2 (Some 1) None] /\
    consistent d' /\
    findCellIfAlive (DrawingStateManager.currentTree d') 0 2
      = Ret (asFound (newCell 0 2 (Some 1) None)) /\
    aliveCellsCount (DrawingStateManager.nextTree d') = 0.
Proof.
  apply (X19_toggle_adds_a_missing_cell drawing_one 0 2).
  - drawing_consistent.
  - lia.
  - lia.
  - intros c H; each_cell H; simpl; lia.
Defined.

Lemma X20_toggle_removes_a_present_cell_witness :
  exists d',
    (forall fuel,
       (enough_fuel ([newCell 1 1 (Some 1%Z) None] ++ []) <= fuel)%nat ->
       DrawingStateManager.toggleCell fuel drawing_two
         (row (newCell 0 2 (Some 1) None)) (col (newCell 0 2 (Some 1) None))
       = Ret d') /\
    DrawingStateManager.cells d' = [newCell 1 1 (Some 1) None] ++ [] /\
    consistent d' /\
    findCellIfAlive (DrawingStateManager.currentTree d')
      (row (newCell 0 2 (Some 1) None)) (col (newCell 0 2 (Some 1) None))
      = Ret DeadCell /\
    aliveCellsCount (DrawingStateManager.nextTree d') = 0.
Proof.
  apply (X20_toggle_removes_a_present_cell drawing_two
           [newCell 1 1 (Some 1) None] [] (newCell 0 2 (Some 1) None)).
  - drawing_consistent.
  - reflexivity.
Defined.

Lemma X21_toggle_twice_restores_the_cells_witness :
  exists d1 d2 fuel0,
    forall fuel, (fuel0 <= fuel)%nat ->
      DrawingStateManager.toggleCell fuel drawing_one 0 2 = Ret d1 /\
      DrawingStateManager.toggleCell fuel d1 0 2 = Ret d2 /\
      DrawingStateManager.cells d2 = DrawingStateManager.cells drawing_one /\
      leaves (DrawingStateManager.currentTree d2)
        = DrawingStateManager.cells drawing_one /\
      consistent d2.
Proof.
  apply (X21_toggle_twice_restores_the_cells drawing_one 0 2).
  - drawing_consistent.
  - lia.
  - lia.
  - intros c H; each_cell H; simpl; lia.
Defined.

Lemma X22_clear_gives_back_a_new_drawing_witness :
  exists d0 d',
    DrawingStateManager.new 5 = Ret d0 /\
    consistent d0 /\ DrawingStateManager.cells d0 = [] /\
    DrawingStateManager.clear 5 drawing_two = Ret d' /\
    consistent d' /\ DrawingStateManager.cells d' = [] /\
    DrawingStateManager.currentTree d' = DrawingStateManager.currentTree d0 /\
    aliveCellsCount (DrawingStateManager.nextTree d') = 0.
Proof.
  apply (X22_clear_gives_back_a_new_drawing drawing_two 5).
  drawing_consistent.
Defined.

(* ================================================================= *)
(** ** Boxes *)

Lemma collectBoxes_nodes :
  forall n boxes, collectBoxes n boxes = boxes ++ map box_of_node (nodes n).
Proof.
  induction n as [r a i | r a i ul IHul ur IHur ll IHll lr IHlr]; intros boxes.
  - reflexivity.
  - cbn [collectBoxes nodes]. rewrite IHlr, IHll, IHur, IHul.
    cbn [map]. rewrite !map_app, <- !app_assoc. reflexivity.
Qed.

(** X23.  After [index] on cells of the non-negative quadrant,
    [collectBoxes] on the root pushes one box per node of the tree, the
    root's first, and the boxes flagged alive are exactly the unit squares
    of the cells of the list. *)
Theorem X23_alive_boxes_are_the_cells (L : list Cell) (fuel : nat) (t : QuadTree) :
  (forall c, In c L -> nonneg c) ->
  QuadTree_index fuel (newQuadTree L) None = Ret t ->
  exists rt,
    root t = Some rt /\
    collectBoxes rt [] = map box_of_node (nodes rt) /\
    (forall b, In b (collectBoxes rt []) /\ alive b = true <->
               exists c, In c L /\ b = alive_box_of c).
Proof.
  intros Hnn H. pose proof (index_indexed_over _ _ _ Hnn H) as HI.
  destruct HI as (El & Em & rt & Er & W & Hall).
  exists rt. split; [exact Er|]. rewrite collectBoxes_nodes. simpl app.
  split; [reflexivity|].
  intros b. split.
  - intros [Hb Ha]. apply in_map_iff in Hb. destruct Hb as (m & <- & Hm).
    pose proof (wf_nodes L m rt W Hm) as Wm.
    unfold box_of_node in Ha. simpl in Ha.
    destruct (index m) as [i|] eqn:Ei; [|discriminate].
    pose proof (wf_index _ _ Wm) as Hi. rewrite Ei in Hi.
    destruct (area m <=? 1) eqn:Ea; [|discriminate].
    apply Z.leb_le in Ea. symmetry in Hi.
    destruct (owner_some _ _ _ _ Hi) as (_ & c & Hn & Hc & _).
    exists c. split; [eapply nth_error_In; eauto|].
    pose proof (unit_rect_eq (rect m) c (wf_ordered _ _ Wm)
                  ltac:(rewrite <- (wf_area _ _ Wm); lia) Hc) as Rm.
    unfold box_of_node, alive_box_of. rewrite Ei, Rm. reflexivity.
  - intros (c & Hc & ->).
    destruct (search_hit t L c (conj El (conj Em (ex_intro _ rt (conj Er (conj W Hall))))) Hc)
      as (m & i & c' & Hs & Rm & _ & _ & Hi & _).
    unfold search in Hs. rewrite Er in Hs. injection Hs as Hs.
    destruct (search_from_any _ c m rt Hs) as (Hm & _).
    split; [|reflexivity].
    apply in_map_iff. exists m. split; [|exact Hm].
    unfold box_of_node, alive_box_of. rewrite Hi, Rm. reflexivity.
Qed.

Lemma X23_alive_boxes_are_the_cells_witness :
  exists rt,
    root corner_tree = Some rt /\
    collectBoxes rt [] = map box_of_node (nodes rt) /\
    (forall b, In b (collectBoxes rt []) /\ alive b = true <->
               exists c, In c corner_seed /\ b = alive_box_of c).
Proof.
  apply (X23_alive_boxes_are_the_cells corner_seed 5 corner_tree).
  - cells_nonneg.
  - vm_compute. reflexivity.
Defined.

(* ================================================================= *)
(** ** Scaling *)

Lemma rect_uniformScale (n : QTNode) (k : Z) :
  rect (uniformScale n k) =
  mkRect (x (rect n) * k) (y (rect n) * k) (xx (rect n) * k) (yy (rect n) * k).
Proof. destruct n; reflexivity. Qed.

Lemma rect_contains_scaled (r : Rect) (c : Cell) (k : Z) :
  1 <= k ->
  rect_contains (mkRect (x r * k) (y r * k) (xx r * k) (yy r * k)) (scaleCell k c)
  = rect_contains r c.
Proof.
  intros Hk. destruct (rect_contains r c) eqn:E.
  - apply rect_contains_iff. apply rect_contains_iff in E. simpl. nia.
  - apply rect_contains_false_iff. apply rect_contains_false_iff in E.
    simpl. nia.
Qed.

(** X24.  For a factor of at least 1, [search] commutes with scaling: on
    the tree scaled by [uniformScale], the search for the cell whose
    coordinates were scaled (as [scaleCells] does) returns the scaled
    image of the node the search for the cell returns on the tree as it
    was, and null where that one returns null.  This holds for every
    tree. *)
Theorem X24_search_commutes_with_scaling (mcs k : Z) (c : Cell) :
  1 <= k ->
  forall n,
  search_from mcs (scaleCell k c) (uniformScale n k)
  = option_map (fun m => uniformScale m k) (search_from mcs c n).
Proof.
  intros Hk.
  induction n as [r a i | r a i ul IHul ur IHur ll IHll lr IHlr].
  - cbn [uniformScale]. cbn [search_from area index rect].
    rewrite !containsRect_rect. cbn [rect].
    rewrite rect_contains_scaled by lia.
    destruct (a =? mcs); [|reflexivity].
    destruct (rect_contains r c && _); reflexivity.
  - cbn [uniformScale]. cbn [search_from area index rect].
    rewrite !containsRect_rect. cbn [rect].
    rewrite rect_contains_scaled by lia.
    destruct (a =? mcs).
    + destruct (rect_contains r c && _); reflexivity.
    + rewrite rect_uniformScale. cbn [xx yy]. unfold width, height.
      assert (E1 : (row (scaleCell k c) + 1 <=? xx (rect ul) * k)
                   = (row c + 1 <=? xx (rect ul))).
      { simpl. destruct (row c + 1 <=? xx (rect ul)) eqn:E.
        - apply Z.leb_le. apply Z.leb_le in E. nia.
        - apply Z.leb_gt. apply Z.leb_gt in E. nia. }
      assert (E2 : (col (scaleCell k c) + 1 <=? yy (rect ul) * k)
                   = (col c + 1 <=? yy (rect ul))).
      { simpl. destruct (col c + 1 <=? yy (rect ul)) eqn:E.
        - apply Z.leb_le. apply Z.leb_le in E. nia.
        - apply Z.leb_gt. apply Z.leb_gt in E. nia. }
      rewrite E1, E2.
      destruct (row c + 1 <=? xx (rect ul)); destruct (col c + 1 <=? yy (rect ul));
        auto.
Qed.

Lemma X24_search_commutes_with_scaling_witness :
  search_from 1 (scaleCell 20 (newCell 1 1 (Some 1) None))
              (uniformScale corner_root 20)
  = option_map (fun m => uniformScale m 20)
               (search_from 1 (newCell 1 1 (Some 1) None) corner_root).
Proof.
  refine (X24_search_commutes_with_scaling 1 20 (newCell 1 1 (Some 1) None)
            _ corner_root).
  lia.
Defined.

Lemma intersectsAABB_scaled (n : QTNode) (qx qy qxx qyy k : Z) :
  0 < k ->
  intersectsAABB (uniformScale n k) (qx * k) (qy * k) (qxx * k) (qyy * k)
  = intersectsAABB n qx qy qxx qyy.
Proof.
  intros Hk. unfold intersectsAABB. rewrite rect_uniformScale. cbn [x y xx yy].
  destruct (((x (rect n) <=? qxx) && (xx (rect n) >=? qx)) &&
            ((y (rect n) <=? qyy) && (yy (rect n) >=? qy))) eqn:E.
  - rewrite !andb_true_iff, !Z.leb_le, !Z.geb_le in *. nia.
  - apply not_true_is_false. intros E'. apply not_true_iff_false in E. apply E.
    rewrite !andb_true_iff, !Z.leb_le, !Z.geb_le in *. nia.
Qed.

Lemma isInsideRect_scaled (c : Cell) (qx qy qxx qyy k : Z) :
  0 < k ->
  Cell_isInsideRect (scaleCell k c) (qx * k) (qy * k) (qxx * k) (qyy * k)
  = Cell_isInsideRect c qx qy qxx qyy.
Proof.
  intros Hk. destruct (Cell_isInsideRect c qx qy qxx qyy) eqn:E.
  - apply isInsideRect_iff. apply isInsideRect_iff in E. simpl. nia.
  - apply not_true_is_false. intros E'. apply not_true_iff_false in E. apply E.
    apply isInsideRect_iff. apply isInsideRect_iff in E'. simpl in E'. nia.
Qed.

(** X25.  For a positive factor the range query commutes with scaling: on
    the tree scaled by [uniformScale], with the leaves scaled by
    [scaleCells] and the query box scaled by the same factor,
    [findAliveInArea] returns the scaled images, in the same order, of the
    cells it returns on the tree as it was.  This holds for every tree. *)
Theorem X25_range_query_commutes_with_scaling
        (lvs : list Cell) (qx qy qxx qyy k : Z) :
  0 < k ->
  forall n,
  findAliveInArea_from (scaleCells lvs k) (qx * k) (qy * k) (qxx * k) (qyy * k)
                       (uniformScale n k)
  = scaleCells (findAliveInArea_from lvs qx qy qxx qyy n) k.
Proof.
  intros Hk.
  induction n as [r a i | r a i ul IHul ur IHur ll IHll lr IHlr].
  - pose proof (intersectsAABB_scaled (Undivided r a i) qx qy qxx qyy k Hk) as Ei.
    cbn [uniformScale] in *. cbn [findAliveInArea_from]. rewrite Ei.
    destruct (negb (intersectsAABB (Undivided r a i) qx qy qxx qyy));
      [reflexivity|].
    assert (Ev : validIndex (scaleCells lvs k) i = validIndex lvs i).
    { unfold validIndex, scaleCells. now rewrite length_map. }
    rewrite Ev. destruct (validIndex lvs i); [|reflexivity].
    assert (Ea : at_index (scaleCells lvs k) i
                 = option_map (scaleCell k) (at_index lvs i)).
    { unfold at_index, scaleCells. destruct i as [j|]; [|reflexivity].
      apply nth_error_map. }
    rewrite Ea. destruct (at_index lvs i) as [cell|]; [|reflexivity].
    cbn [option_map]. rewrite isInsideRect_scaled by lia.
    destruct (Cell_isInsideRect cell qx qy qxx qyy); reflexivity.
  - pose proof (intersectsAABB_scaled (Subdivided r a i ul ur ll lr)
                  qx qy qxx qyy k Hk) as Ei.
    cbn [uniformScale] in *. cbn [findAliveInArea_from]. rewrite Ei.
    destruct (negb (intersectsAABB (Subdivided r a i ul ur ll lr) qx qy qxx qyy));
      [reflexivity|].
    rewrite IHul, IHur, IHll, IHlr. unfold scaleCells.
    cbn [app]. rewrite !map_app. reflexivity.
Qed.

Lemma X25_range_query_commutes_with_scaling_witness :
  findAliveInArea_from (scaleCells corner_seed 20)
                       (0 * 20) (0 * 20) (1 * 20) (1 * 20)
                       (uniformScale corner_root 20)
  = scaleCells (findAliveInArea_from corner_seed 0 0 1 1 corner_root) 20.
Proof.
  refine (X25_range_query_commutes_with_scaling corner_seed 0 0 1 1 20
            _ corner_root).
  lia.
Defined.

(* ================================================================= *)
(** ** Clones *)

Lemma cloneCells_map (cells : list Cell) :
  cloneCells cells
  = map (fun cell => newCell (row cell) (col cell) (Some 1) None) cells.
Proof.
  unfold cloneCells.
  rewrite (fold_left_appends _
             (fun cell => [newCell (row cell) (col cell) (Some 1) None]));
    [|reflexivity].
  simpl. induction cells as [|c cells IH]; simpl; [reflexivity|].
  now rewrite IH.
Qed.

Lemma addCell_same_place (mcs : Z) (c c' : Cell) (i : Z) :
  same_place c c' ->
  forall fuel n, addCell fuel mcs n c i = addCell fuel mcs n c' i.
Proof.
  intros Hs. induction fuel as [|fuel IH]; intros n; [reflexivity|].
  cbn [addCell]. rewrite !containsRect_rect.
  rewrite (same_place_contains (rect n) c c' Hs).
  destruct (negb _); [reflexivity|].
  destruct (mcs >=? area n); [reflexivity|].
  destruct (subdivide n) as [r a j | r a j ul ur ll lr]; [reflexivity|].
  rewrite !IH.
  destruct (addCell fuel mcs ul c' i); cbn [bind]; [|reflexivity|reflexivity].
  destruct (addCell fuel mcs ur c' i); cbn [bind]; [|reflexivity|reflexivity].
  destruct (addCell fuel mcs ll c' i); cbn [bind]; [|reflexivity|reflexivity].
  reflexivity.
Qed.

Lemma addCells_same_places (mcs : Z) (fuel : nat) (L L' : list Cell) :
  Forall2 same_place L L' ->
  forall n i, addCells fuel mcs n L i = addCells fuel mcs n L' i.
Proof.
  induction 1 as [|c c' L L' Hs HF IH]; intros n i; [reflexivity|].
  cbn [addCells]. rewrite (addCell_same_place mcs c c' i Hs fuel n).
  destruct (addCell fuel mcs n c' i); cbn [bind]; auto.
Qed.

Lemma bbox_fold_same_places (L L' : list Cell) :
  Forall2 same_place L L' ->
  forall acc, fold_left bbox_step L acc = fold_left bbox_step L' acc.
Proof.
  induction 1 as [|c c' L L' [Er Ec] HF IH]; intros acc; [reflexivity|].
  cbn [fold_left]. rewrite <- IH. f_equal.
  destruct acc as [[[a b] cc] d]. simpl. now rewrite Er, Ec.
Qed.

(** The root and the bounding box [index] builds depend on the places of
    the cells only. *)
Lemma index_same_places (fuel : nat) (L L' : list Cell) (t : QuadTree) :
  Forall2 same_place L L' ->
  QuadTree_index fuel (newQuadTree L) None = Ret t ->
  exists t',
    QuadTree_index fuel (newQuadTree L') None = Ret t' /\
    root t' = root t /\ boundary t' = boundary t /\ leaves t' = L'.
Proof.
  intros HF. unfold QuadTree_index. cbn [leaves newQuadTree minimumCellSize].
  assert (Eb : match L with
               | cell0 :: _ => buildAxisAlignedBoundingBox cell0 L
               | [] => emptyAABB
               end
               = match L' with
                 | cell0 :: _ => buildAxisAlignedBoundingBox cell0 L'
                 | [] => emptyAABB
                 end).
  { destruct HF as [|c c' L L' Hs HF]; [reflexivity|].
    unfold buildAxisAlignedBoundingBox.
    rewrite (bbox_fold_same_places (c :: L) (c' :: L') (Forall2_cons _ _ Hs HF)).
    destruct Hs as [-> ->]. reflexivity. }
  rewrite Eb, (addCells_same_places 1 fuel L L' HF).
  intros H. apply bind_Ret in H. destruct H as (r & Hr & [= <-]).
  rewrite Hr. cbn [bind]. eexists. split; [reflexivity|]. repeat split.
Qed.

(** X27.  [cloneCells] copies the cells in order with their places, age 1
    and the state ALIVE, whatever their age and state were; and the tree
    [index] builds over the clones has the same root, with the same nodes
    and indices, and the same bounding box as the tree over the cells
    cloned. *)
Theorem X27_clones_index_to_the_same_tree (L : list Cell) (fuel : nat) (t : QuadTree) :
  QuadTree_index fuel (newQuadTree L) None = Ret t ->
  List.length (cloneCells L) = List.length L /\
  (forall j c, nth_error L j = Some c ->
     nth_error (cloneCells L) j = Some (mkCell (row c) (col c) 1 ALIVE)) /\
  exists t',
    QuadTree_index fuel (newQuadTree (cloneCells L)) None = Ret t' /\
    root t' = root t /\ boundary t' = boundary t /\ leaves t' = cloneCells L.
Proof.
  intros H. rewrite cloneCells_map. split; [apply length_map|]. split.
  - intros j c Hj.
    exact (map_nth_error
             (fun cell : Cell => newCell (row cell) (col cell) (Some 1) None)
             j L Hj).
  - apply (index_same_places fuel L); [|exact H].
    clear H. induction L as [|c L IH]; simpl; constructor; auto.
    split; reflexivity.
Qed.

Lemma X27_clones_index_to_the_same_tree_witness :
  List.length (cloneCells corner_seed) = List.length corner_seed /\
  (forall j c, nth_error corner_seed j = Some c ->
     nth_error (cloneCells corner_seed) j = Some (mkCell (row c) (col c) 1 ALIVE)) /\
  exists t',
    QuadTree_index 5 (newQuadTree (cloneCells corner_seed)) None = Ret t' /\
    root t' = root corner_tree /\ boundary t' = boundary corner_tree /\
    leaves t' = cloneCells corner_seed.
Proof.
  apply (X27_clones_index_to_the_same_tree corner_seed 5 corner_tree).
  vm_compute. reflexivity.
Defined.

(* ================================================================= *)
(** ** The start button *)

Lemma clicks_alternate (n : nat) :
  (exists events,
     StartButton.clicks n "RUNNING"
     = Ret (events, if Nat.even n then "RUNNING"%string else "PAUSED"%string) /\
     List.length events = n /\
     forall e, In e events ->
       e = "sim-event-pause-requested"%string \/
       e = "sim-event-resume-requested"%string) /\
  (exists events,
     StartButton.clicks n "PAUSED"
     = Ret (events, if Nat.even n then "PAUSED"%string else "RUNNING"%string) /\
     List.length events = n /\
     forall e, In e events ->
       e = "sim-event-pause-requested"%string \/
       e = "sim-event-resume-requested"%string).
Proof.
  induction n as [|n [(er & Hr & Lr & Er) (ep & Hp & Lp & Ep)]].
  - split; exists []; simpl; repeat split; intros e [].
  - rewrite Nat.even_succ, <- Nat.negb_even. split.
    + exists ("sim-event-pause-requested"%string :: ep).
      cbn [StartButton.clicks]. unfold StartButton.handleClick. simpl bind.
      rewrite Hp. simpl. split; [destruct (Nat.even n); reflexivity|].
      split; [lia|]. intros e [<-|He]; auto.
    + exists ("sim-event-resume-requested"%string :: er).
      cbn [StartButton.clicks]. unfold StartButton.handleClick. simpl bind.
      rewrite Hr. simpl. split; [destruct (Nat.even n); reflexivity|].
      split; [lia|]. intros e [<-|He]; auto.
Qed.

(** X26.  Starting from the state IDLE, any number of clicks goes through
    without an error; the first click dispatches the start event and every
    later one the pause or the resume event; after an odd number of clicks
    the state is RUNNING, after an even number (above 0) PAUSED: the state
    IDLE is never entered again. *)
Theorem X26_start_button_cycle (n : nat) :
  exists events,
    StartButton.clicks (S n) "IDLE"
    = Ret ("sim-event-start-requested"%string :: events,
           if Nat.even n then "RUNNING"%string else "PAUSED"%string) /\
    List.length events = n /\
    forall e, In e events ->
      e = "sim-event-pause-requested"%string \/
      e = "sim-event-resume-requested"%string.
Proof.
  destruct (clicks_alternate n) as [(er & Hr & Lr & Er) _].
  exists er. cbn [StartButton.clicks]. unfold StartButton.handleClick.
  simpl bind. rewrite Hr. simpl. auto.
Qed.
